(** * gpage: one contiguous allocation arena (src/gpage.h)

    A shallow embedding of class [gcpp::gpage] and a verification of its
    constructor, of [allocate], [contains], [location_info] and
    [deallocate], and of [lowest_hex_digits_of_address].

    - [std::size_t] is taken to be 64 bits wide: its values are integers in
      [Z], reduced modulo [2^64] by [wrap] after every arithmetic operation,
      as unsigned arithmetic does.
    - Pointers are addresses in [Z]; [nullptr] is address [0].
    - [std::vector<bool>] is a [list bool]; an access outside the vector is
      undefined behaviour in C++ and is reported as [Fault out_of_range].
    - Assertions are compiled in (no [NDEBUG]); a failing [assert] is
      reported as [Fault assertion_failed].
    - [allocate] additionally records, in order, the indices of [inuse] that
      its scan reads. *)

From Stdlib Require Import ZArith List Lia Bool.
From Stdlib.Init Require Import Byte.
From Stdlib Require Import Ascii.
From stdpp Require Import base list.
Import ListNotations.
Local Open Scope Z_scope.

(** ** Machine arithmetic *)

Definition size_bits : Z := 64.
Definition size_modulus : Z := 2 ^ size_bits.

(** Reduction of an integer to a [std::size_t]. *)
Definition wrap (z : Z) : Z := z mod size_modulus.

Definition nullptr : Z := 0.

(** ** Outcomes of a member function *)

Inductive fault : Set :=
| assertion_failed
| out_of_range
| out_of_fuel.

Inductive outcome (A : Type) : Type :=
| Done (a : A)
| Fault (f : fault).
Arguments Done {A} a.
Arguments Fault {A} f.

Definition bind {A B : Type} (m : outcome A) (k : A -> outcome B) : outcome B :=
  match m with
  | Done a => k a
  | Fault f => Fault f
  end.

Notation "x <- c1 ;; c2" := (bind c1 (fun x => c2))
  (at level 100, c1 at next level, right associativity).

(** [assert(b)] *)
Definition assert (b : bool) : outcome unit :=
  if b then Done tt else Fault assertion_failed.

(** ** std::vector<bool> *)

(** [v[i]] read *)
Definition vget (v : list bool) (i : Z) : outcome bool :=
  match v !! Z.to_nat i with
  | Some b => Done b
  | None => Fault out_of_range
  end.

(** [v[i] = b] *)
Definition vset (v : list bool) (i : Z) (b : bool) : outcome (list bool) :=
  if i <? Z.of_nat (length v) then Done (<[Z.to_nat i := b]> v)
  else Fault out_of_range.

(** [std::fill(v.begin() + first, v.begin() + last, b)] *)
Definition vfill (v : list bool) (first last : Z) (b : bool) : outcome (list bool) :=
  if (first <=? last) && (last <=? Z.of_nat (length v))
  then Done (list_inserts (Z.to_nat first) (replicate (Z.to_nat (last - first)) b) v)
  else Fault out_of_range.

(** ** The page *)

Record gpage : Type := mk_gpage {
  total_size : Z;
  min_alloc : Z;
  storage : Z;                       (* address held by the unique_ptr *)
  storage_bytes : list byte;         (* the bytes behind it *)
  inuse : list bool;
  starts : list bool;
  current_known_request_bound : Z
}.

Definition locations (g : gpage) : Z := total_size g / min_alloc g.

(** [gpage::gpage(total_size_, min_alloc_)].  [addr] and [fresh] are the
    address and the (indeterminate) contents of the buffer that
    [new byte[total_size]] returns. *)
Definition gpage_ctor (total_size_ min_alloc_ : Z) (addr : Z) (fresh : list byte)
  : outcome gpage :=
  let total_size :=
    wrap (total_size_ +
          (if 0 <? total_size_ mod min_alloc_
           then wrap (min_alloc_ - total_size_ mod min_alloc_)
           else 0)) in
  _ <- assert (total_size mod min_alloc_ =? 0) ;;
  Done {| total_size := total_size;
          min_alloc := min_alloc_;
          storage := addr;
          storage_bytes := fresh;
          inuse := replicate (Z.to_nat total_size) false;
          starts := replicate (Z.to_nat total_size) false;
          current_known_request_bound := total_size |}.

(** [std::align(alignment, size, ptr, space)] of <memory>, as the C++ standard
    describes it: the first address at or after [ptr] that is a multiple of
    [alignment], when [size] bytes still fit in [space] from there; the
    remaining space shrinks by the bytes skipped. *)
Definition std_align (alignment size ptr space : Z) : option (Z * Z) :=
  let diff := (alignment - ptr mod alignment) mod alignment in
  if (size <=? space) && (diff <=? space - size)
  then Some (ptr + diff, space - diff)
  else None.

(** *** allocate *)

(** The inner loop of [allocate]:
    [for (; j < locations_needed; ++j) if (inuse[i + j]) break;]
    with [n] the iterations left.  Returns the final [j] and the indices read. *)
Fixpoint probe (inuse : list bool) (i j : Z) (n : nat) : outcome (Z * list Z) :=
  match n with
  | O => Done (j, [])
  | S n' =>
      b <- vget inuse (wrap (i + j)) ;;
      if b then Done (j, [wrap (i + j)])
      else r <- probe inuse i (j + 1) n' ;;
           let '(j', tr) := r in
           Done (j', wrap (i + j) :: tr)
  end.

(** The outer loop of [allocate]: [for (; i < end; i += locations_step)].
    Every iteration moves [i] forward, so [fuel] bounds the iterations.
    Returns the final [i] and the indices of [inuse] read, in order. *)
Fixpoint scan (fuel : nat) (inuse : list bool) (end_ step needed i : Z)
  : outcome (Z * list Z) :=
  if i <? end_ then
    match fuel with
    | O => Fault out_of_fuel
    | S fuel' =>
        r <- probe inuse i 0 (Z.to_nat needed) ;;
        let '(j, tr) := r in
        if j =? needed then Done (i, tr)
        else
          (* inuse[i + j] was set: i += j; break; then i += locations_step *)
          r' <- scan fuel' inuse end_ step needed
                     (wrap (wrap (i + j) + step)) ;;
          let '(i', tr') := r' in
          Done (i', tr ++ tr')
    end
  else Done (i, []).

Record allocate_ret : Type := mk_allocate_ret {
  ret_ptr : Z;            (* the T* returned *)
  ret_page : gpage;       (* the page afterwards *)
  ret_probes : list Z     (* indices of inuse read by the scan *)
}.

Definition set_bound (g : gpage) (b : Z) : gpage :=
  {| total_size := total_size g;
     min_alloc := min_alloc g;
     storage := storage g;
     storage_bytes := storage_bytes g;
     inuse := inuse g;
     starts := starts g;
     current_known_request_bound := b |}.

(** [gpage::allocate<T>(num)] with [size_T = sizeof(T)], [align_T = alignof(T)]. *)
Definition allocate (size_T align_T num : Z) (g : gpage) : outcome allocate_ret :=
  let bytes_needed := wrap (size_T * num) in
  if current_known_request_bound g <? bytes_needed then
    Done (mk_allocate_ret nullptr g [])
  else
    match std_align align_T bytes_needed (storage g) (total_size g) with
    | None => Done (mk_allocate_ret nullptr g [])
    | Some (aligned_start, _) =>
        let locations_step := wrap (1 + wrap (align_T - 1) / min_alloc g) in
        let locations_needed :=
          wrap (wrap (1 + wrap (bytes_needed - 1) / min_alloc g)
                + (if 1 <? num then 1 else 0)) in
        let end_ := wrap (wrap (locations g - locations_needed) + 1) in
        let i0 := wrap (aligned_start - storage g) / min_alloc g in
        _ <- assert (i0 =? 0) ;;
        r <- scan (S (Z.to_nat end_)) (inuse g) end_ locations_step
                  locations_needed i0 ;;
        let '(i, tr) := r in
        if end_ <=? i then
          Done (mk_allocate_ret nullptr
                  (set_bound g (Z.min (current_known_request_bound g)
                                      (wrap (bytes_needed - 1))))
                  tr)
        else
          starts' <- vset (starts g) i true ;;
          inuse' <- vfill (inuse g) i (i + locations_needed) true ;;
          Done (mk_allocate_ret
                  (wrap (storage g + wrap (i * min_alloc g)))
                  {| total_size := total_size g;
                     min_alloc := min_alloc g;
                     storage := storage g;
                     storage_bytes := storage_bytes g;
                     inuse := inuse';
                     starts := starts';
                     current_known_request_bound :=
                       wrap (current_known_request_bound g
                             - wrap (min_alloc g * locations_needed)) |}
                  tr)
    end.

(** *** contains *)

Inductive gpage_find_result : Set :=
| not_in_range
| in_range_unallocated
| in_range_allocated_middle
| in_range_allocated_start.

Record contains_ret : Type := mk_contains_ret {
  found : gpage_find_result;
  location : Z;
  start_location : Z
}.

(** [while (start > 0 && !starts[start - 1]) --start;] *)
Fixpoint find_start (starts : list bool) (start : nat) : outcome Z :=
  match start with
  | O => Done 0
  | S s =>
      b <- vget starts (Z.of_nat s) ;;
      if b then Done (Z.of_nat start) else find_start starts s
  end.

(** [gpage::contains(p)] *)
Definition contains (p : Z) (g : gpage) : outcome contains_ret :=
  let pp := p in
  if negb ((storage g <=? pp) && (pp <? wrap (storage g + wrap (total_size g - 1))))
  then Done (mk_contains_ret not_in_range 0 0)
  else
    let where_ := wrap (pp - storage g) / min_alloc g in
    used <- vget (inuse g) where_ ;;
    if negb used then Done (mk_contains_ret in_range_unallocated where_ 0)
    else
      st <- vget (starts g) where_ ;;
      if negb st then
        start <- find_start (starts g) (Z.to_nat where_) ;;
        _ <- assert (0 <? start) ;;
        Done (mk_contains_ret in_range_allocated_middle where_ (wrap (start - 1)))
      else Done (mk_contains_ret in_range_allocated_start where_ where_).

(** *** location_info *)

Record location_info_ret : Type := mk_location_info_ret {
  is_start : bool;
  pointer : Z
}.

(** [gpage::location_info(where)] *)
Definition location_info (where_ : Z) (g : gpage) : outcome location_info_ret :=
  b <- vget (starts g) where_ ;;
  Done (mk_location_info_ret b (wrap (storage g + wrap (where_ * min_alloc g)))).

(** *** deallocate *)

(** [for (; next_start < locations(); ++next_start) if (starts[next_start]) break;]
    with [n = locations() - next_start] iterations left at most. *)
Fixpoint find_next_start (starts : list bool) (next_start : Z) (n : nat)
  : outcome Z :=
  match n with
  | O => Done next_start
  | S n' =>
      b <- vget starts next_start ;;
      if b then Done next_start
      else find_next_start starts (next_start + 1) n'
  end.

(** [while (here < next_start && inuse[here]) { inuse[here] = false; ++here; }]
    with [n = next_start - here] iterations left at most. *)
Fixpoint clear_run (inuse : list bool) (here : Z) (n : nat) : outcome (list bool) :=
  match n with
  | O => Done inuse
  | S n' =>
      b <- vget inuse here ;;
      if b then
        inuse' <- vset inuse here false ;;
        clear_run inuse' (here + 1) n'
      else Done inuse
  end.

(** [gpage::deallocate(p)] *)
Definition deallocate (p : Z) (g : gpage) : outcome gpage :=
  if p =? nullptr then Done g
  else
    let here := wrap (p - storage g) / min_alloc g in
    _ <- assert ((0 <=? here) && (here <? locations g)) ;;
    s <- vget (starts g) here ;;
    _ <- assert s ;;
    u <- vget (inuse g) here ;;
    _ <- assert u ;;
    starts' <- vset (starts g) here false ;;
    next_start <- find_next_start starts' (wrap (here + 1))
                    (Z.to_nat (locations g - wrap (here + 1))) ;;
    let bytes_unallocated_here := wrap (wrap (next_start - here) * min_alloc g) in
    let bound' := Z.max (current_known_request_bound g) bytes_unallocated_here in
    inuse' <- clear_run (inuse g) here (Z.to_nat (next_start - here)) ;;
    Done {| total_size := total_size g;
            min_alloc := min_alloc g;
            storage := storage g;
            storage_bytes := storage_bytes g;
            inuse := inuse';
            starts := starts';
            current_known_request_bound := bound' |}.

(** *** lowest_hex_digits_of_address *)

(** [static const char digits[] = "0123456789ABCDEF";] *)
Definition digits : list ascii :=
  ["0"; "1"; "2"; "3"; "4"; "5"; "6"; "7";
   "8"; "9"; "A"; "B"; "C"; "D"; "E"; "F"]%char.

(** [digits[i]], read with an index that is always below 16. *)
Definition digit_at (i : Z) : ascii := nth (Z.to_nat i) digits " "%char.

(** [while (num-- > 0) { ret[num] = digits[val % 16]; val >>= 4; }] *)
Fixpoint hex_loop (num : nat) (val : Z) (ret : list ascii) : list ascii :=
  match num with
  | O => ret
  | S num' =>
      hex_loop num' (Z.shiftr val 4) (<[num' := digit_at (val mod 16)]> ret)
  end.

(** [lowest_hex_digits_of_address(p, num)] *)
Definition lowest_hex_digits_of_address (p num : Z) : outcome (list ascii) :=
  _ <- assert ((0 <? num) && (num <? 9)) ;;
  Done (hex_loop (Z.to_nat num) (wrap p) (replicate (Z.to_nat num) " "%char)).

(** * Specification vocabulary *)

(** Slots [i .. i+n-1] are all free. *)
Definition free_run (v : list bool) (i n : Z) : Prop :=
  forall k, 0 <= k < n -> vget v (i + k) = Done false.

(** Every maximal run of in-use slots begins at a multiple of [step]. *)
Definition heads_aligned (v : list bool) (L step : Z) : Prop :=
  forall s, 0 < s < L ->
    vget v s = Done true -> vget v (s - 1) = Done false -> s mod step = 0.

(** What the constructor establishes and every member function keeps, on top
    of the limits of the platform: the buffer lies inside the address space
    and is no larger than the largest object ([PTRDIFF_MAX]). *)
Record page_ok (g : gpage) : Prop := mk_page_ok {
  ok_min_alloc : 0 < min_alloc g;
  ok_total_size : 0 <= total_size g < size_modulus / 2;
  ok_multiple : total_size g mod min_alloc g = 0;
  ok_storage : 0 < storage g /\ storage g + total_size g < size_modulus;
  ok_inuse : Z.of_nat (length (inuse g)) = total_size g;
  ok_starts : Z.of_nat (length (starts g)) = total_size g
}.

(** A request [allocate<T>(num)] the page can be asked: a nonzero byte count,
    an alignment that fits [std::size_t], and a buffer whose first address
    aligned for [T] lies in slot 0 (the check at line 156 of gpage.h). *)
Record request_ok (g : gpage) (size_T align_T num : Z) : Prop := mk_request_ok {
  req_bytes : 0 < wrap (size_T * num);
  req_align : 0 < align_T <= size_modulus / 2;
  req_slot0 : (align_T - storage g mod align_T) mod align_T < min_alloc g
}.

Definition bytes_of (size_T num : Z) : Z := wrap (size_T * num).

Definition needed_of (g : gpage) (size_T num : Z) : Z :=
  1 + (bytes_of size_T num - 1) / min_alloc g + (if 1 <? num then 1 else 0).

Definition step_of (g : gpage) (align_T : Z) : Z :=
  1 + (align_T - 1) / min_alloc g.

(** The page after slots [i .. i+n-1] have been handed out. *)
Definition allocated (g : gpage) (i n : Z) : gpage :=
  {| total_size := total_size g;
     min_alloc := min_alloc g;
     storage := storage g;
     storage_bytes := storage_bytes g;
     inuse := list_inserts (Z.to_nat i) (replicate (Z.to_nat n) true) (inuse g);
     starts := <[Z.to_nat i := true]> (starts g);
     current_known_request_bound :=
       wrap (current_known_request_bound g - min_alloc g * n) |}.

(** Candidate [c] is a start slot the scan is meant to consider. *)
Definition eligible (g : gpage) (size_T align_T num c : Z) : Prop :=
  0 <= c /\ c + needed_of g size_T num <= locations g /\
  c mod step_of g align_T = 0.

(** The three ways [allocate] can end. *)
Inductive allocate_post (g : gpage) (size_T align_T num : Z)
  : allocate_ret -> Prop :=
| post_rejected :
    current_known_request_bound g < bytes_of size_T num \/
    std_align align_T (bytes_of size_T num) (storage g) (total_size g) = None ->
    allocate_post g size_T align_T num (mk_allocate_ret nullptr g [])
| post_exhausted tr :
    bytes_of size_T num <= current_known_request_bound g ->
    bytes_of size_T num <= total_size g ->
    NoDup tr ->
    (forall s, s ∈ tr -> 0 <= s < locations g) ->
    (heads_aligned (inuse g) (locations g) (step_of g align_T) ->
     forall c, eligible g size_T align_T num c ->
       ~ free_run (inuse g) c (needed_of g size_T num)) ->
    allocate_post g size_T align_T num
      (mk_allocate_ret nullptr
         (set_bound g (Z.min (current_known_request_bound g)
                             (bytes_of size_T num - 1)))
         tr)
| post_placed i tr :
    bytes_of size_T num <= current_known_request_bound g ->
    bytes_of size_T num <= total_size g ->
    0 <= i ->
    i + needed_of g size_T num <= locations g ->
    free_run (inuse g) i (needed_of g size_T num) ->
    NoDup tr ->
    (forall s, s ∈ tr -> 0 <= s < locations g) ->
    (heads_aligned (inuse g) (locations g) (step_of g align_T) ->
     i mod step_of g align_T = 0 /\
     forall c, eligible g size_T align_T num c -> c < i ->
       ~ free_run (inuse g) c (needed_of g size_T num)) ->
    allocate_post g size_T align_T num
      (mk_allocate_ret (storage g + i * min_alloc g)
         (allocated g i (needed_of g size_T num))
         tr).

(** A start bit is only ever set on a slot that is in use. *)
Definition starts_in_use (g : gpage) : Prop :=
  forall k, 0 <= k < locations g ->
    vget (starts g) k = Done true -> vget (inuse g) k = Done true.

(** An in-use slot whose predecessor is free (or that is slot 0) carries a
    start bit. *)
Definition runs_headed (g : gpage) : Prop :=
  forall k, 0 <= k < locations g ->
    vget (inuse g) k = Done true ->
    k = 0 \/ vget (inuse g) (k - 1) = Done false ->
    vget (starts g) k = Done true.

Definition bits_ok (g : gpage) : Prop := starts_in_use g /\ runs_headed g.

(** The slot a pointer falls in. *)
Definition slot_of (g : gpage) (p : Z) : Z := wrap (p - storage g) / min_alloc g.

(** [ns] is the nearest slot after [here] that starts an allocation, or the
    slot count when there is none. *)
Definition next_start_after (g : gpage) (here ns : Z) : Prop :=
  here < ns <= locations g /\
  (forall k, here < k < ns -> vget (starts g) k = Done false) /\
  (ns < locations g -> vget (starts g) ns = Done true).

(** [p] is a pointer [deallocate] accepts: its three assertions hold. *)
Definition live_start (g : gpage) (p : Z) : Prop :=
  p <> nullptr /\
  slot_of g p < locations g /\
  vget (starts g) (slot_of g p) = Done true /\
  vget (inuse g) (slot_of g p) = Done true.

(** The page after the allocation at [here] was released: [ns] is the next
    start and [e] one past the last slot cleared. *)
Record released (g g' : gpage) (here ns e : Z) : Prop := mk_released {
  rel_total_size : total_size g' = total_size g;
  rel_min_alloc : min_alloc g' = min_alloc g;
  rel_storage : storage g' = storage g;
  rel_storage_bytes : storage_bytes g' = storage_bytes g;
  rel_starts : starts g' = <[Z.to_nat here := false]> (starts g);
  rel_bound : current_known_request_bound g' =
              Z.max (current_known_request_bound g) ((ns - here) * min_alloc g);
  rel_next : next_start_after g here ns;
  rel_end : here < e <= ns;
  rel_length : length (inuse g') = length (inuse g);
  rel_cleared : forall k, here <= k < e ->
                  vget (inuse g) k = Done true /\ vget (inuse g') k = Done false;
  rel_stop : e < ns -> vget (inuse g) e = Done false;
  rel_kept : forall k, 0 <= k -> k < here \/ e <= k ->
               vget (inuse g') k = vget (inuse g) k
}.

(** [total_size_] rounded up to a multiple of [min_alloc_]. *)
Definition round_up (total_size_ min_alloc_ : Z) : Z :=
  (total_size_ + min_alloc_ - 1) / min_alloc_ * min_alloc_.

(** Arguments the constructor can be given: a positive granule, and a buffer
    that, once rounded up, respects the platform limits. *)
Definition ctor_ok (total_size_ min_alloc_ addr : Z) : Prop :=
  0 < min_alloc_ /\ 0 <= total_size_ /\
  round_up total_size_ min_alloc_ < size_modulus / 2 /\
  0 < addr /\ addr + round_up total_size_ min_alloc_ < size_modulus.

(** The pages a client can observe: built by the constructor and then driven
    through [allocate] and [deallocate] calls that return. *)
Inductive reachable : gpage -> Prop :=
| reach_ctor total_size_ min_alloc_ addr fresh g :
    ctor_ok total_size_ min_alloc_ addr ->
    gpage_ctor total_size_ min_alloc_ addr fresh = Done g ->
    reachable g
| reach_allocate g size_T align_T num r :
    reachable g ->
    request_ok g size_T align_T num ->
    allocate size_T align_T num g = Done r ->
    reachable (ret_page r)
| reach_deallocate g p g' :
    reachable g ->
    deallocate p g = Done g' ->
    reachable g'.

(** Slots [a .. b-1] form a maximal contiguous run of in-use slots. *)
Definition maximal_run (g : gpage) (a b : Z) : Prop :=
  0 <= a < b /\ b <= locations g /\
  (forall k, a <= k < b -> vget (inuse g) k = Done true) /\
  (a = 0 \/ vget (inuse g) (a - 1) = Done false) /\
  (b = locations g \/ vget (inuse g) b = Done false).

(** Start bits sit on in-use slots only, and every maximal run begins with
    one. *)
Definition runs_ok (g : gpage) : Prop :=
  starts_in_use g /\
  forall a b, maximal_run g a b -> vget (starts g) a = Done true.

(** The reading of the invariant with exactly one start bit per maximal run. *)
Definition one_start_per_run (g : gpage) : Prop :=
  forall a b, maximal_run g a b ->
    vget (starts g) a = Done true /\
    forall k, a < k < b -> vget (starts g) k = Done false.

Definition zero_bytes (n : nat) : list byte := replicate n x00.

(** [gpage(16, 4)]: four slots, with the buffer at address 4096. *)
Definition page_16_4 : gpage :=
  {| total_size := 16;
     min_alloc := 4;
     storage := 4096;
     storage_bytes := zero_bytes 16;
     inuse := replicate 16 false;
     starts := replicate 16 false;
     current_known_request_bound := 16 |}.

(** The page after two one-slot allocations on [page_16_4]. *)
Definition page_two_adjacent : gpage :=
  allocated (allocated page_16_4 0 1) 1 1.

(** A page where a free gap follows the middle allocation: slots 0, 1 and 3
    hold one-slot allocations, slot 2 was released before. *)
Definition page_gap : gpage :=
  {| total_size := 16;
     min_alloc := 4;
     storage := 4096;
     storage_bytes := zero_bytes 16;
     inuse := <[0%nat := true]> (<[1%nat := true]> (<[3%nat := true]>
                (replicate 16 false)));
     starts := <[0%nat := true]> (<[1%nat := true]> (<[3%nat := true]>
                 (replicate 16 false)));
     current_known_request_bound := 4 |}.

(** [gpage(12, 4)]: three slots, with the buffer at address 4096. *)
Definition page_12_4 : gpage :=
  {| total_size := 12;
     min_alloc := 4;
     storage := 4096;
     storage_bytes := zero_bytes 12;
     inuse := replicate 12 false;
     starts := replicate 12 false;
     current_known_request_bound := 12 |}.

(** [gpage(1024, 4)] just constructed, with its buffer at [base]. *)
Definition fresh_1024_4 (base : Z) (fresh : list byte) : gpage :=
  {| total_size := 1024;
     min_alloc := 4;
     storage := base;
     storage_bytes := fresh;
     inuse := replicate 1024 false;
     starts := replicate 1024 false;
     current_known_request_bound := 1024 |}.

Ltac by_compute :=
  vm_compute; first [reflexivity | discriminate | (intros ?; discriminate)].

(** The default page after its first and after its second allocation in the
    scenario of [default_page_scenario]. *)
Definition after_first (base : Z) (fresh : list byte) : gpage :=
  allocated (fresh_1024_4 base fresh) 0 2.

Definition after_second (base : Z) (fresh : list byte) : gpage :=
  allocated (after_first base fresh) 2 11.

(** [p] points into the range [contains] accepts. *)
Definition in_page_range (g : gpage) (p : Z) : Prop :=
  storage g <= p < storage g + total_size g - 1.

(** What a result of [contains] says about the page. *)
Definition classified (g : gpage) (p : Z) (c : contains_ret) : Prop :=
  match found c with
  | not_in_range =>
      ~ in_page_range g p /\ location c = 0 /\ start_location c = 0
  | in_range_unallocated =>
      in_page_range g p /\ location c = slot_of g p /\ start_location c = 0 /\
      vget (inuse g) (slot_of g p) = Done false
  | in_range_allocated_start =>
      in_page_range g p /\ location c = slot_of g p /\
      start_location c = slot_of g p /\
      vget (inuse g) (slot_of g p) = Done true /\
      vget (starts g) (slot_of g p) = Done true
  | in_range_allocated_middle =>
      in_page_range g p /\ location c = slot_of g p /\
      0 <= start_location c < slot_of g p /\
      vget (starts g) (start_location c) = Done true /\
      forall k, start_location c < k <= slot_of g p ->
        vget (inuse g) k = Done true /\ vget (starts g) k = Done false
  end.
(** The pages reachable from one particular construction. *)
Inductive reachable_from (total_size_ min_alloc_ addr : Z) (fresh : list byte)
  : gpage -> Prop :=
| from_ctor g :
    ctor_ok total_size_ min_alloc_ addr ->
    gpage_ctor total_size_ min_alloc_ addr fresh = Done g ->
    reachable_from total_size_ min_alloc_ addr fresh g
| from_allocate g size_T align_T num r :
    reachable_from total_size_ min_alloc_ addr fresh g ->
    request_ok g size_T align_T num ->
    allocate size_T align_T num g = Done r ->
    reachable_from total_size_ min_alloc_ addr fresh (ret_page r)
| from_deallocate g p g' :
    reachable_from total_size_ min_alloc_ addr fresh g ->
    deallocate p g = Done g' ->
    reachable_from total_size_ min_alloc_ addr fresh g'.

(** Reading a string of hexadecimal digits back, most significant first. *)
Fixpoint index_of (c : ascii) (l : list ascii) (i : Z) : option Z :=
  match l with
  | [] => None
  | x :: l' => if Ascii.eqb c x then Some i else index_of c l' (i + 1)
  end.

Definition hex_digit_value (c : ascii) : option Z := index_of c digits 0.

Definition hex_step (acc : option Z) (c : ascii) : option Z :=
  match acc, hex_digit_value c with
  | Some a, Some d => Some (a * 16 + d)
  | _, _ => None
  end.

Definition hex_value (s : list ascii) : option Z := fold_left hex_step s (Some 0).

(** The [n] lowest hexadecimal digits of [val], most significant first. *)
Fixpoint hex_digits_of (n : nat) (val : Z) : list ascii :=
  match n with
  | O => []
  | S n' => hex_digits_of n' (val / 16) ++ [digit_at (val mod 16)]
  end.

(** * Verification *)

(** ** Monad laws *)

Lemma bind_Done {A B : Type} (a : A) (k : A -> outcome B) : bind (Done a) k = k a.
Proof. reflexivity. Qed.

Lemma bind_Done_inv {A B : Type} (m : outcome A) (k : A -> outcome B) b :
  bind m k = Done b -> exists a, m = Done a /\ k a = Done b.
Proof. destruct m as [a|f]; simpl; intros H; [eauto | discriminate]. Qed.

Lemma assert_Done_inv b u : assert b = Done u -> b = true.
Proof. destruct b; simpl; [reflexivity | discriminate]. Qed.

(** ** Arithmetic and vector facts *)

Lemma size_modulus_eq : size_modulus = 18446744073709551616.
Proof. reflexivity. Qed.

Lemma wrap_small z : 0 <= z < size_modulus -> wrap z = z.
Proof. intros. unfold wrap. apply Z.mod_small. lia. Qed.

Lemma wrap_range z : 0 <= wrap z < size_modulus.
Proof. unfold wrap. apply Z.mod_pos_bound. rewrite size_modulus_eq. lia. Qed.

Lemma vget_lookup v i b : vget v i = Done b <-> v !! Z.to_nat i = Some b.
Proof.
  unfold vget. destruct (v !! Z.to_nat i); split; intros H; congruence.
Qed.

Lemma vget_in_range v i :
  0 <= i < Z.of_nat (length v) -> exists b, vget v i = Done b.
Proof.
  intros Hi. unfold vget.
  destruct (lookup_lt_is_Some_2 v (Z.to_nat i)) as [b Hb]; [lia|].
  rewrite Hb. eauto.
Qed.

Lemma vget_Done_range v i b :
  0 <= i -> vget v i = Done b -> i < Z.of_nat (length v).
Proof.
  intros Hi H. apply vget_lookup, lookup_lt_Some in H. lia.
Qed.

Lemma vset_in_range v i b :
  0 <= i < Z.of_nat (length v) -> vset v i b = Done (<[Z.to_nat i := b]> v).
Proof.
  intros Hi. unfold vset.
  destruct (Z.ltb_spec i (Z.of_nat (length v))); [reflexivity | lia].
Qed.

Lemma vfill_in_range v first last b :
  first <= last <= Z.of_nat (length v) ->
  vfill v first last b =
  Done (list_inserts (Z.to_nat first) (replicate (Z.to_nat (last - first)) b) v).
Proof.
  intros H. unfold vfill.
  destruct (Z.leb_spec first last); [|lia].
  destruct (Z.leb_spec last (Z.of_nat (length v))); [reflexivity | lia].
Qed.

Lemma vget_insert_eq v i b :
  0 <= i < Z.of_nat (length v) -> vget (<[Z.to_nat i := b]> v) i = Done b.
Proof.
  intros Hi. apply vget_lookup, list_lookup_insert_eq. lia.
Qed.

Lemma vget_insert_ne v i k b :
  0 <= i -> 0 <= k -> i <> k -> vget (<[Z.to_nat i := b]> v) k = vget v k.
Proof.
  intros Hi Hk Hne. unfold vget. rewrite list_lookup_insert_ne; [reflexivity | lia].
Qed.

Lemma vget_fill_in v i n b k :
  0 <= i -> 0 <= n -> i + n <= Z.of_nat (length v) -> i <= k < i + n ->
  vget (list_inserts (Z.to_nat i) (replicate (Z.to_nat n) b) v) k = Done b.
Proof.
  intros Hi Hn Hlen Hk. apply vget_lookup.
  rewrite list_lookup_inserts.
  - apply lookup_replicate_2. lia.
  - rewrite length_replicate. lia.
  - lia.
Qed.

Lemma vget_fill_out v i n b k :
  0 <= i -> 0 <= n -> 0 <= k -> (k < i \/ i + n <= k) ->
  vget (list_inserts (Z.to_nat i) (replicate (Z.to_nat n) b) v) k = vget v k.
Proof.
  intros Hi Hn Hk0 Hk. unfold vget. destruct Hk.
  - rewrite list_lookup_inserts_lt; [reflexivity | lia].
  - rewrite list_lookup_inserts_ge; [reflexivity | rewrite length_replicate; lia].
Qed.

(** ** The scan of [allocate] *)

Lemma probe_spec v i : 0 <= i ->
  forall n j, 0 <= j ->
    i + j + Z.of_nat n <= Z.of_nat (length v) ->
    i + j + Z.of_nat n <= size_modulus ->
    exists j' tr,
      probe v i j n = Done (j', tr) /\
      j <= j' <= j + Z.of_nat n /\
      (forall k, j <= k < j' -> vget v (i + k) = Done false) /\
      (j' < j + Z.of_nat n -> vget v (i + j') = Done true) /\
      NoDup tr /\
      (forall s, s ∈ tr -> i + j <= s <= i + j' /\ s < i + j + Z.of_nat n).
Proof.
  intros Hi n. induction n as [|n IH]; intros j Hj Hlen Hmod.
  - exists j, []. simpl.
    split; [reflexivity|]. split; [lia|].
    split; [intros k Hk; lia|]. split; [lia|].
    split; [constructor|].
    intros s Hs. apply elem_of_nil in Hs. contradiction.
  - simpl probe. rewrite (wrap_small (i + j)) by lia.
    destruct (vget_in_range v (i + j)) as [b Hb]; [lia|].
    rewrite Hb. simpl bind. destruct b.
    + exists j, [i + j].
      split; [reflexivity|]. split; [lia|].
      split; [intros k Hk; lia|]. split; [intros _; exact Hb|].
      split; [apply NoDup_singleton|].
      intros s Hs. apply list_elem_of_singleton in Hs. lia.
    + destruct (IH (j + 1)) as (j' & tr & Hp & Hj' & Hfree & Hocc & Hnd & Hin);
        try lia.
      rewrite Hp. simpl bind. exists j', ((i + j) :: tr).
      split; [reflexivity|]. split; [lia|]. split.
      { intros k Hk. destruct (Z.eq_dec k j) as [->|Hne]; [exact Hb|].
        apply Hfree. lia. }
      split. { intros Hlt. apply Hocc. lia. }
      split.
      { apply NoDup_cons. split; [|exact Hnd].
        intros Hmem. apply Hin in Hmem. lia. }
      intros s Hs. apply elem_of_cons in Hs. destruct Hs as [->|Hs]; [lia|].
      apply Hin in Hs. lia.
Qed.

Section Scan.
Variables (v : list bool) (L needed step end_ : Z).
Hypothesis Hneeded : 1 <= needed.
Hypothesis Hend : end_ = L - needed + 1.
Hypothesis HL : L <= Z.of_nat (length v).
Hypothesis Hstep : 1 <= step.
Hypothesis Hnowrap : L + step <= size_modulus.

Lemma scan_spec fuel : forall i,
  0 <= i -> end_ - i < Z.of_nat fuel \/ end_ <= i ->
  exists i' tr,
    scan fuel v end_ step needed i = Done (i', tr) /\
    i <= i' /\
    (i' < end_ -> free_run v i' needed) /\
    NoDup tr /\
    (forall s, s ∈ tr -> i <= s < L) /\
    (heads_aligned v L step -> i mod step = 0 ->
       i' mod step = 0 /\
       forall c, i <= c < i' -> c mod step = 0 ->
         exists k, 0 <= k < needed /\ vget v (c + k) = Done true).
Proof.
  induction fuel as [|fuel IH]; intros i Hi Hfuel.
  - assert (end_ <= i) by lia.
    exists i, []. simpl. destruct (Z.ltb_spec i end_); [lia|].
    split; [reflexivity|]. split; [lia|]. split; [lia|].
    split; [constructor|].
    split; [intros s Hs; apply elem_of_nil in Hs; contradiction|].
    intros _ Hmod. split; [exact Hmod|]. intros c Hc. lia.
  - simpl scan. destruct (Z.ltb_spec i end_) as [Hlt|Hge].
    2:{ exists i, [].
        split; [reflexivity|]. split; [lia|]. split; [lia|].
        split; [constructor|].
        split; [intros s Hs; apply elem_of_nil in Hs; contradiction|].
        intros _ Hmod. split; [exact Hmod|]. intros c Hc. lia. }
    destruct (probe_spec v i Hi (Z.to_nat needed) 0)
      as (j & tr & Hp & Hj & Hfree & Hocc & Hnd & Hin); try lia.
    rewrite Hp. simpl bind. rewrite Z2Nat.id in * by lia.
    destruct (Z.eqb_spec j needed) as [->|Hne].
    + exists i, tr. split; [reflexivity|]. split; [lia|].
      split. { intros _ k Hk. apply Hfree. lia. }
      split; [exact Hnd|].
      split. { intros s Hs. apply Hin in Hs. lia. }
      intros _ Hmod. split; [exact Hmod|]. intros c Hc. lia.
    + assert (Hjlt : j < needed) by lia.
      specialize (Hocc ltac:(lia)).
      rewrite (wrap_small (i + j)) by lia.
      rewrite (wrap_small (i + j + step)) by lia.
      destruct (IH (i + j + step)) as (i' & tr' & Hs & Hle & Hrun & Hnd' & Hin' & Hff);
        try lia.
      rewrite Hs. simpl bind.
      exists i', (tr ++ tr'). split; [reflexivity|]. split; [lia|].
      split; [exact Hrun|].
      split.
      { apply NoDup_app. split; [exact Hnd|]. split; [|exact Hnd'].
        intros s Hs1 Hs2. apply Hin in Hs1. apply Hin' in Hs2. lia. }
      split.
      { intros s Hs'. apply elem_of_app in Hs'. destruct Hs' as [Hs'|Hs'].
        - apply Hin in Hs'. lia.
        - apply Hin' in Hs'. lia. }
      intros Hheads Hmod.
      assert (Hij : (i + j) mod step = 0).
      { destruct (Z.eq_dec j 0) as [->|Hj0].
        - rewrite Z.add_0_r. exact Hmod.
        - apply Hheads; [lia | exact Hocc |].
          replace (i + j - 1) with (i + (j - 1)) by lia.
          apply Hfree. lia. }
      assert (Hnext : (i + j + step) mod step = 0).
      { rewrite <- Zplus_mod_idemp_r, Z_mod_same_full, Z.add_0_r. exact Hij. }
      destruct (Hff Hheads Hnext) as [Hi'mod Hcand].
      split; [exact Hi'mod|].
      intros c Hc Hcmod.
      destruct (Z_lt_le_dec c (i + j + step)) as [Hclt|Hcge].
      * assert (c <= i + j).
        { apply Z.mod_divide in Hcmod; [|lia].
          apply Z.mod_divide in Hij; [|lia].
          destruct Hcmod as [a Ha]. destruct Hij as [b Hb'].
          assert (a < b + 1) by nia. nia. }
        exists (i + j - c). split; [lia|].
        replace (c + (i + j - c)) with (i + j) by lia. exact Hocc.
      * apply Hcand; lia.
Qed.
End Scan.

(** ** Well-formed pages and requests *)

Section PageArith.
Variable g : gpage.
Hypothesis Hok : page_ok g.

Lemma total_size_slots : total_size g = locations g * min_alloc g.
Proof.
  destruct Hok. unfold locations.
  rewrite (Z.div_mod (total_size g) (min_alloc g)) at 1 by lia. lia.
Qed.

Lemma locations_range : 0 <= locations g <= total_size g.
Proof.
  pose proof total_size_slots. destruct Hok.
  assert (0 <= locations g) by (apply Z.div_pos; lia).
  nia.
Qed.

Lemma slot_of_offset off :
  0 <= off < total_size g -> 0 <= off / min_alloc g < locations g.
Proof.
  intros Hoff. pose proof total_size_slots. destruct Hok. split.
  - apply Z.div_pos; lia.
  - apply Z.div_lt_upper_bound; lia.
Qed.

Lemma needed_range size_T num :
  1 <= bytes_of size_T num <= total_size g ->
  1 <= needed_of g size_T num <= locations g + 1 /\
  bytes_of size_T num <= min_alloc g * needed_of g size_T num.
Proof.
  intros Hb. unfold needed_of.
  pose proof (slot_of_offset (bytes_of size_T num - 1) ltac:(lia)) as Hs.
  destruct Hok.
  pose proof (Z.mul_succ_div_gt (bytes_of size_T num - 1) (min_alloc g) ltac:(lia)).
  destruct (1 <? num); split; nia.
Qed.

Lemma step_range align_T :
  0 < align_T <= size_modulus / 2 ->
  1 <= step_of g align_T <= size_modulus / 2.
Proof.
  intros Ha. unfold step_of. destruct Hok.
  assert (0 <= (align_T - 1) / min_alloc g) by (apply Z.div_pos; lia).
  assert ((align_T - 1) / min_alloc g <= align_T - 1).
  { apply Z.div_le_upper_bound; [lia | nia]. }
  lia.
Qed.
End PageArith.

Lemma half_modulus_eq : size_modulus / 2 = 9223372036854775808.
Proof. reflexivity. Qed.

Ltac limits := rewrite ?half_modulus_eq, ?size_modulus_eq in *.

Section AllocateArith.
Variable g : gpage.
Hypothesis Hok : page_ok g.

Lemma needed_wrap size_T num :
  1 <= bytes_of size_T num <= total_size g ->
  wrap (wrap (1 + wrap (bytes_of size_T num - 1) / min_alloc g)
        + (if 1 <? num then 1 else 0)) = needed_of g size_T num.
Proof.
  intros Hb. pose proof (needed_range g Hok size_T num Hb) as [Hn _].
  pose proof (locations_range g Hok) as HL.
  pose proof (slot_of_offset g Hok (bytes_of size_T num - 1) ltac:(lia)) as Hs.
  unfold needed_of in *. destruct Hok. limits.
  rewrite (wrap_small (bytes_of size_T num - 1)) by (limits; lia).
  rewrite (wrap_small (1 + _)) by (limits; lia).
  apply wrap_small. limits. destruct (1 <? num); lia.
Qed.

Lemma end_wrap n :
  1 <= n <= locations g + 1 ->
  wrap (wrap (locations g - n) + 1) = locations g - n + 1.
Proof.
  intros Hn. pose proof (locations_range g Hok) as HL. destruct Hok.
  unfold wrap. rewrite Zplus_mod_idemp_l. apply Z.mod_small. limits. lia.
Qed.

Lemma step_wrap align_T :
  0 < align_T <= size_modulus / 2 ->
  wrap (1 + wrap (align_T - 1) / min_alloc g) = step_of g align_T.
Proof.
  intros Ha. pose proof (step_range g Hok align_T Ha) as Hs.
  unfold step_of in *. limits.
  rewrite (wrap_small (align_T - 1)) by (limits; lia).
  apply wrap_small. limits. lia.
Qed.
End AllocateArith.

Lemma std_align_Some alignment size ptr space a sp :
  0 < alignment ->
  std_align alignment size ptr space = Some (a, sp) ->
  size <= space /\
  a = ptr + (alignment - ptr mod alignment) mod alignment /\
  0 <= (alignment - ptr mod alignment) mod alignment <= space - size.
Proof.
  intros Hal H. unfold std_align in H.
  destruct (Z.leb_spec size space); simpl in H; [|discriminate].
  destruct (Z.leb_spec ((alignment - ptr mod alignment) mod alignment) (space - size));
    [|discriminate].
  injection H as <- <-.
  pose proof (Z.mod_pos_bound (alignment - ptr mod alignment) alignment Hal).
  lia.
Qed.

(** [allocate] returns on every well-formed page and request, in one of the
    three ways of [allocate_post]. *)
Lemma allocate_spec g size_T align_T num :
  page_ok g -> request_ok g size_T align_T num ->
  exists r, allocate size_T align_T num g = Done r /\
            allocate_post g size_T align_T num r.
Proof.
  intros Hok Hreq. destruct Hreq as [Hb Ha Hslot].
  unfold allocate. fold (bytes_of size_T num).
  fold (bytes_of size_T num) in Hb.
  destruct (Z.ltb_spec (current_known_request_bound g) (bytes_of size_T num))
    as [Hrej|Hbound].
  { eexists. split; [reflexivity|]. apply post_rejected. left. exact Hrej. }
  destruct (std_align align_T (bytes_of size_T num) (storage g) (total_size g))
    as [[a sp]|] eqn:Hal.
  2:{ eexists. split; [reflexivity|]. apply post_rejected. right. exact Hal. }
  apply std_align_Some in Hal; [|lia]. destruct Hal as (Hfit & -> & Hdiff).
  pose proof (needed_range g Hok size_T num ltac:(lia)) as [Hn Hbn].
  pose proof (step_range g Hok align_T Ha) as Hst.
  pose proof (locations_range g Hok) as HL.
  pose proof (total_size_slots g Hok) as HT.
  rewrite (needed_wrap g Hok) by lia.
  rewrite (step_wrap g Hok) by lia.
  rewrite (end_wrap g Hok) by lia.
  set (needed := needed_of g size_T num) in *.
  set (step := step_of g align_T) in *.
  set (diff := (align_T - storage g mod align_T) mod align_T) in *.
  pose proof Hok as [Hm Hts Hmul [Hs0 Hs1] Hlu Hls].
  replace (wrap (storage g + diff - storage g) / min_alloc g) with 0.
  2:{ replace (storage g + diff - storage g) with diff by lia.
      rewrite wrap_small by (limits; lia).
      symmetry. apply Z.div_small. lia. }
  change (assert (0 =? 0)) with (Done tt). rewrite bind_Done.
  assert (Hnowrap : locations g + step <= size_modulus) by (limits; lia).
  destruct (scan_spec (inuse g) (locations g) needed step
              (locations g - needed + 1)
              ltac:(lia) eq_refl ltac:(lia) ltac:(lia) Hnowrap
              (S (Z.to_nat (locations g - needed + 1))) 0 ltac:(lia) ltac:(lia))
    as (i & tr & Hscan & Hi & Hrun & Hnd & Hin & Hff).
  rewrite Hscan, bind_Done.
  destruct (Z.leb_spec (locations g - needed + 1) i) as [Hfail|Hfound].
  - eexists. split.
    + rewrite (wrap_small (bytes_of size_T num - 1)) by (limits; lia).
      reflexivity.
    + apply post_exhausted; try assumption; try lia.
      intros Hheads c (Hc0 & Hc1 & Hc2) Hfree.
      destruct (Hff Hheads (Z.mod_0_l step ltac:(lia))) as [_ Hcand].
      destruct (Hcand c ltac:(lia) Hc2) as (k & Hk & Hocc).
      rewrite (Hfree k Hk) in Hocc. discriminate.
  - specialize (Hrun Hfound).
    rewrite vset_in_range by lia. rewrite bind_Done.
    rewrite vfill_in_range by lia. rewrite bind_Done.
    eexists. split.
    + replace (i + needed - i) with needed by lia.
      rewrite (wrap_small (i * min_alloc g)) by (limits; nia).
      rewrite (wrap_small (storage g + _)) by (limits; nia).
      rewrite (wrap_small (min_alloc g * needed)) by (limits; nia).
      reflexivity.
    + apply post_placed; try assumption; try lia.
      intros Hheads.
      destruct (Hff Hheads (Z.mod_0_l step ltac:(lia))) as [Hmod Hcand].
      split; [exact Hmod|].
      intros c (Hc0 & Hc1 & Hc2) Hlt Hfree.
      destruct (Hcand c ltac:(lia) Hc2) as (k & Hk & Hocc).
      rewrite (Hfree k Hk) in Hocc. discriminate.
Qed.

(** A call of [allocate] that returns was either turned away before the scan
    or passed the check that the scan starts in slot 0. *)
Lemma allocate_Done_cases g size_T align_T num r :
  page_ok g -> 0 < bytes_of size_T num -> 0 < align_T <= size_modulus / 2 ->
  allocate size_T align_T num g = Done r ->
  r = mk_allocate_ret nullptr g [] \/ request_ok g size_T align_T num.
Proof.
  intros Hok Hb Ha. unfold allocate. fold (bytes_of size_T num).
  destruct (current_known_request_bound g <? bytes_of size_T num).
  { intros [= <-]. left. reflexivity. }
  destruct (std_align align_T (bytes_of size_T num) (storage g) (total_size g))
    as [[a sp]|] eqn:Hal.
  2:{ intros [= <-]. left. reflexivity. }
  apply std_align_Some in Hal; [|lia]. destruct Hal as (Hfit & -> & Hdiff).
  intros Hcall. right. constructor; [exact Hb | exact Ha |].
  apply bind_Done_inv in Hcall as (? & Hassert & _).
  apply assert_Done_inv, Z.eqb_eq in Hassert.
  destruct Hok as [Hm Hts _ _ _ _].
  replace (storage g + (align_T - storage g mod align_T) mod align_T - storage g)
    with ((align_T - storage g mod align_T) mod align_T) in Hassert by lia.
  rewrite wrap_small in Hassert by (limits; lia).
  apply Z.div_small_iff in Hassert; lia.
Qed.

(** ** The bitmap invariant *)

Lemma vget_bool v k :
  0 <= k < Z.of_nat (length v) -> vget v k = Done true \/ vget v k = Done false.
Proof.
  intros Hk. destruct (vget_in_range v k Hk) as [[] Hb]; auto.
Qed.

Lemma page_ok_set_bound g b : page_ok g -> page_ok (set_bound g b).
Proof. intros []. constructor; assumption. Qed.

Lemma bits_ok_set_bound g b : bits_ok g -> bits_ok (set_bound g b).
Proof. intros H. exact H. Qed.

Lemma page_ok_allocated g i n : page_ok g -> page_ok (allocated g i n).
Proof.
  intros []. constructor; simpl; try assumption.
  - rewrite length_inserts. assumption.
  - rewrite length_insert. assumption.
Qed.

Section Allocated.
Variables (g : gpage) (i n : Z).
Hypothesis Hok : page_ok g.
Hypothesis Hi : 0 <= i.
Hypothesis Hn : 1 <= n.
Hypothesis Hfit : i + n <= locations g.
Hypothesis Hfree : free_run (inuse g) i n.

Lemma allocated_inuse_in k :
  i <= k < i + n -> vget (inuse (allocated g i n)) k = Done true.
Proof.
  intros Hk. pose proof (locations_range g Hok) as HL.
  simpl. destruct Hok. apply vget_fill_in; lia.
Qed.

Lemma allocated_inuse_out k :
  0 <= k -> k < i \/ i + n <= k ->
  vget (inuse (allocated g i n)) k = vget (inuse g) k.
Proof.
  intros Hk0 Hk. simpl. apply vget_fill_out; lia.
Qed.

Lemma allocated_starts_at : vget (starts (allocated g i n)) i = Done true.
Proof.
  pose proof (locations_range g Hok) as HL.
  simpl. destruct Hok. apply vget_insert_eq. lia.
Qed.

Lemma allocated_starts_other k :
  0 <= k -> k <> i -> vget (starts (allocated g i n)) k = vget (starts g) k.
Proof.
  intros Hk Hne. simpl. apply vget_insert_ne; lia.
Qed.

Lemma allocated_locations : locations (allocated g i n) = locations g.
Proof. reflexivity. Qed.

(** Inside the fresh allocation only its first slot carries a start bit. *)
Lemma allocated_interior_not_start k :
  starts_in_use g -> i < k < i + n ->
  vget (starts (allocated g i n)) k = Done false.
Proof.
  intros Hsiu Hk. pose proof (locations_range g Hok) as HL.
  rewrite allocated_starts_other by lia.
  destruct Hok.
  destruct (vget_bool (starts g) k ltac:(lia)) as [Ht|Hf]; [|exact Hf].
  apply Hsiu in Ht; [|lia].
  replace k with (i + (k - i)) in Ht by lia.
  rewrite Hfree in Ht by lia. discriminate.
Qed.

Lemma bits_ok_allocated : bits_ok g -> bits_ok (allocated g i n).
Proof.
  intros [Hsiu Hrh]. split.
  - intros k Hk Hs. rewrite allocated_locations in Hk.
    destruct (Z_lt_le_dec k i) as [Hlt|Hge].
    + rewrite allocated_starts_other in Hs by lia.
      rewrite allocated_inuse_out by lia. apply Hsiu; [lia | exact Hs].
    + destruct (Z_lt_le_dec k (i + n)) as [Hin|Hout].
      * apply allocated_inuse_in. lia.
      * rewrite allocated_starts_other in Hs by lia.
        rewrite allocated_inuse_out by lia. apply Hsiu; [lia | exact Hs].
  - intros k Hk Hu Hprev. rewrite allocated_locations in Hk.
    destruct (Z.eq_dec k i) as [->|Hne]; [apply allocated_starts_at|].
    rewrite allocated_starts_other by lia.
    destruct (Z.eq_dec k 0) as [Hk0|Hk0].
    { rewrite allocated_inuse_out in Hu by lia.
      apply Hrh; [lia | exact Hu | left; exact Hk0]. }
    destruct Hprev as [->|Hprev]; [lia|].
    destruct (Z_lt_le_dec k i) as [Hlt|Hge].
    + rewrite allocated_inuse_out in Hu by lia.
      apply Hrh; [lia | exact Hu | right].
      rewrite allocated_inuse_out in Hprev by lia. exact Hprev.
    + destruct (Z_lt_le_dec (k - 1) (i + n)) as [Hin|Hout].
      * rewrite allocated_inuse_in in Hprev by lia. discriminate.
      * rewrite allocated_inuse_out in Hu by lia.
        apply Hrh; [lia | exact Hu | right].
        rewrite allocated_inuse_out in Hprev by lia. exact Hprev.
Qed.
End Allocated.

(** ** contains *)

Lemma find_start_spec v s0 :
  0 <= s0 -> vget v s0 = Done true ->
  forall n : nat, s0 < Z.of_nat n ->
    (forall k, s0 < k < Z.of_nat n -> vget v k = Done false) ->
    find_start v n = Done (s0 + 1).
Proof.
  intros Hs0 Hstart n. induction n as [|n IH]; intros Hlt Hnone; [lia|].
  simpl find_start.
  destruct (Z.eq_dec (Z.of_nat n) s0) as [Heq|Hne].
  - rewrite Heq, Hstart, bind_Done. f_equal. lia.
  - rewrite (Hnone (Z.of_nat n)) by lia. rewrite bind_Done.
    apply IH; [lia|]. intros k Hk. apply Hnone. lia.
Qed.

Section Contains.
Variables (g : gpage) (off : Z).
Hypothesis Hok : page_ok g.
Hypothesis Hoff : 0 <= off < total_size g - 1.

Lemma contains_unfold :
  contains (storage g + off) g =
  (used <- vget (inuse g) (off / min_alloc g) ;;
   if negb used
   then Done (mk_contains_ret in_range_unallocated (off / min_alloc g) 0)
   else
     st <- vget (starts g) (off / min_alloc g) ;;
     if negb st then
       start <- find_start (starts g) (Z.to_nat (off / min_alloc g)) ;;
       _ <- assert (0 <? start) ;;
       Done (mk_contains_ret in_range_allocated_middle (off / min_alloc g)
               (wrap (start - 1)))
     else Done (mk_contains_ret in_range_allocated_start
                  (off / min_alloc g) (off / min_alloc g))).
Proof.
  destruct Hok as [Hm Hts Hmul [Hs0 Hs1] Hlu Hls]. unfold contains.
  rewrite (wrap_small (total_size g - 1)) by (limits; lia).
  rewrite (wrap_small (storage g + (total_size g - 1))) by (limits; lia).
  destruct (Z.leb_spec (storage g) (storage g + off)); [|lia].
  destruct (Z.ltb_spec (storage g + off) (storage g + (total_size g - 1))); [|lia].
  simpl negb. cbv iota.
  replace (storage g + off - storage g) with off by lia.
  rewrite (wrap_small off) by (limits; lia).
  reflexivity.
Qed.

Lemma contains_unallocated :
  vget (inuse g) (off / min_alloc g) = Done false ->
  contains (storage g + off) g =
  Done (mk_contains_ret in_range_unallocated (off / min_alloc g) 0).
Proof.
  intros Hu. rewrite contains_unfold, Hu, bind_Done. reflexivity.
Qed.

Lemma contains_start :
  vget (inuse g) (off / min_alloc g) = Done true ->
  vget (starts g) (off / min_alloc g) = Done true ->
  contains (storage g + off) g =
  Done (mk_contains_ret in_range_allocated_start
          (off / min_alloc g) (off / min_alloc g)).
Proof.
  intros Hu Hs. rewrite contains_unfold, Hu, bind_Done. simpl negb. cbv iota.
  rewrite Hs, bind_Done. reflexivity.
Qed.

Lemma contains_middle s0 :
  vget (inuse g) (off / min_alloc g) = Done true ->
  vget (starts g) (off / min_alloc g) = Done false ->
  0 <= s0 < off / min_alloc g ->
  vget (starts g) s0 = Done true ->
  (forall k, s0 < k < off / min_alloc g -> vget (starts g) k = Done false) ->
  contains (storage g + off) g =
  Done (mk_contains_ret in_range_allocated_middle (off / min_alloc g) s0).
Proof.
  intros Hu Hs Hs0 Hstart Hnone.
  rewrite contains_unfold, Hu, bind_Done. simpl negb. cbv iota.
  rewrite Hs, bind_Done. simpl negb. cbv iota.
  rewrite (find_start_spec (starts g) s0)
    by (try assumption; lia || (intros k Hk; apply Hnone; lia)).
  rewrite bind_Done.
  destruct (Z.ltb_spec 0 (s0 + 1)); [|lia].
  simpl assert. rewrite bind_Done.
  replace (s0 + 1 - 1) with s0 by lia.
  pose proof (slot_of_offset g Hok off ltac:(lia)).
  pose proof (locations_range g Hok). destruct Hok.
  rewrite wrap_small by (limits; lia). reflexivity.
Qed.
End Contains.

(** ** deallocate *)

Lemma find_next_start_spec v : forall (n : nat) ns,
  0 <= ns -> ns + Z.of_nat n <= Z.of_nat (length v) ->
  exists r, find_next_start v ns n = Done r /\
    ns <= r <= ns + Z.of_nat n /\
    (forall k, ns <= k < r -> vget v k = Done false) /\
    (r < ns + Z.of_nat n -> vget v r = Done true).
Proof.
  induction n as [|n IH]; intros ns Hns Hlen.
  - exists ns. simpl. split; [reflexivity|]. split; [lia|].
    split; [intros k Hk; lia | lia].
  - simpl find_next_start.
    destruct (vget_in_range v ns ltac:(lia)) as [b Hb]. rewrite Hb, bind_Done.
    destruct b.
    + exists ns. split; [reflexivity|]. split; [lia|].
      split; [intros k Hk; lia | intros _; exact Hb].
    + destruct (IH (ns + 1) ltac:(lia) ltac:(lia)) as (r & Hr & Hrange & Hnone & Hat).
      exists r. split; [exact Hr|]. split; [lia|]. split.
      * intros k Hk. destruct (Z.eq_dec k ns) as [->|Hne]; [exact Hb|].
        apply Hnone. lia.
      * intros Hlt. apply Hat. lia.
Qed.

Lemma clear_run_spec : forall (n : nat) v here,
  0 <= here -> here + Z.of_nat n <= Z.of_nat (length v) ->
  exists v' e, clear_run v here n = Done v' /\
    here <= e <= here + Z.of_nat n /\
    length v' = length v /\
    (forall k, here <= k < e -> vget v k = Done true /\ vget v' k = Done false) /\
    (e < here + Z.of_nat n -> vget v e = Done false) /\
    (forall k, 0 <= k -> k < here \/ e <= k -> vget v' k = vget v k).
Proof.
  induction n as [|n IH]; intros v here Hhere Hlen.
  - exists v, here. simpl. split; [reflexivity|]. split; [lia|].
    split; [reflexivity|]. split; [intros k Hk; lia|].
    split; [lia | intros; reflexivity].
  - simpl clear_run.
    destruct (vget_in_range v here ltac:(lia)) as [b Hb]. rewrite Hb, bind_Done.
    destruct b.
    + rewrite vset_in_range by lia. rewrite bind_Done.
      destruct (IH (<[Z.to_nat here := false]> v) (here + 1) ltac:(lia))
        as (v' & e & Hrun & He & Hlen' & Hin & Hstop & Hout).
      { rewrite length_insert. lia. }
      exists v', e. split; [exact Hrun|]. split; [lia|].
      split; [rewrite Hlen', length_insert; reflexivity|].
      split.
      { intros k Hk. destruct (Z.eq_dec k here) as [->|Hne].
        - split; [exact Hb|].
          rewrite Hout by lia. apply vget_insert_eq. lia.
        - destruct (Hin k ltac:(lia)) as [H1 H2]. split; [|exact H2].
          rewrite vget_insert_ne in H1 by lia. exact H1. }
      split.
      { intros Hlt. specialize (Hstop ltac:(lia)).
        rewrite vget_insert_ne in Hstop by lia. exact Hstop. }
      intros k Hk0 Hk. rewrite Hout by lia. apply vget_insert_ne; lia.
    + exists v, here. split; [reflexivity|]. split; [lia|].
      split; [reflexivity|]. split; [intros k Hk; lia|].
      split; [intros _; exact Hb | intros; reflexivity].
Qed.

Lemma slot_of_range g p : page_ok g -> 0 <= slot_of g p.
Proof.
  intros []. unfold slot_of. apply Z.div_pos; [|lia].
  pose proof (wrap_range (p - storage g)). lia.
Qed.

Lemma deallocate_spec g p :
  page_ok g -> live_start g p ->
  exists g' ns e, deallocate p g = Done g' /\ released g g' (slot_of g p) ns e.
Proof.
  intros Hok (Hp & Hlt & Hs & Hu).
  pose proof (slot_of_range g p Hok) as Hh0.
  pose proof (locations_range g Hok) as HL.
  pose proof (total_size_slots g Hok) as HT.
  pose proof Hok as [Hm Hts Hmul [Hs0 Hs1] Hlu Hls].
  unfold deallocate. fold (slot_of g p).
  set (here := slot_of g p) in *.
  destruct (Z.eqb_spec p nullptr) as [|_]; [contradiction|].
  destruct (Z.leb_spec 0 here); [|lia].
  destruct (Z.ltb_spec here (locations g)); [|lia].
  simpl andb. simpl assert. rewrite bind_Done.
  rewrite Hs, bind_Done. simpl assert. rewrite bind_Done.
  rewrite Hu, bind_Done. simpl assert. rewrite bind_Done.
  rewrite vset_in_range by lia. rewrite bind_Done.
  rewrite (wrap_small (here + 1)) by (limits; lia).
  destruct (find_next_start_spec (<[Z.to_nat here := false]> (starts g))
              (Z.to_nat (locations g - (here + 1))) (here + 1))
    as (ns & Hns & Hrange & Hnone & Hat); [lia | rewrite length_insert; lia |].
  rewrite Z2Nat.id in * by lia.
  rewrite Hns, bind_Done.
  destruct (clear_run_spec (Z.to_nat (ns - here)) (inuse g) here)
    as (v' & e & Hrun & He & Hlen & Hin & Hstop & Hout); [lia | lia |].
  rewrite Z2Nat.id in * by lia.
  rewrite Hrun, bind_Done.
  assert (He' : here < e).
  { destruct (Z_lt_le_dec here e) as [|Hle]; [assumption|].
    assert (e = here) as -> by lia.
    rewrite Hstop in Hu by lia. discriminate. }
  eexists _, ns, e. split; [reflexivity|].
  constructor; simpl; try reflexivity; try assumption; try lia.
  - rewrite (wrap_small (ns - here)) by (limits; lia).
    rewrite (wrap_small ((ns - here) * min_alloc g)) by (limits; nia).
    reflexivity.
  - split; [lia|]. split.
    + intros k Hk. rewrite <- (vget_insert_ne (starts g) here k false) by lia.
      apply Hnone. lia.
    + intros Hlt'. rewrite <- (vget_insert_ne (starts g) here ns false) by lia.
      apply Hat. lia.
  - intros Hlt'. apply Hstop. lia.
Qed.

(** A call of [deallocate] that returns was given null or a live start. *)
Lemma deallocate_Done_inv g p g' :
  deallocate p g = Done g' -> p = nullptr /\ g' = g \/ live_start g p.
Proof.
  unfold deallocate. fold (slot_of g p).
  destruct (Z.eqb_spec p nullptr) as [Hnull|Hp].
  { intros [= <-]. left. auto. }
  intros H. right.
  apply bind_Done_inv in H as (? & Hrange & H). apply assert_Done_inv in Hrange.
  apply bind_Done_inv in H as (s & Hs & H).
  apply bind_Done_inv in H as (? & Hs' & H). apply assert_Done_inv in Hs'. subst s.
  apply bind_Done_inv in H as (u & Hu & H).
  apply bind_Done_inv in H as (? & Hu' & H). apply assert_Done_inv in Hu'. subst u.
  apply andb_true_iff in Hrange as [_ Hlt]. apply Z.ltb_lt in Hlt.
  repeat split; assumption.
Qed.

Section Released.
Variables (g g' : gpage) (here ns e : Z).
Hypothesis Hok : page_ok g.
Hypothesis Hbits : bits_ok g.
Hypothesis Hhere : 0 <= here.
Hypothesis Hrel : released g g' here ns e.

Lemma released_page_ok : page_ok g'.
Proof.
  destruct Hok, Hrel.
  constructor;
    rewrite ?rel_starts0, ?length_insert, ?rel_length0, ?rel_storage0,
      ?rel_total_size0, ?rel_min_alloc0;
    assumption.
Qed.

Lemma released_locations : locations g' = locations g.
Proof. destruct Hrel. unfold locations. congruence. Qed.

(** Between the end of the cleared run and the next start every slot was
    already free. *)
Lemma released_gap_free k : e <= k < ns -> vget (inuse g) k = Done false.
Proof.
  destruct Hbits as [_ Hrh]. destruct Hrel.
  destruct rel_next0 as (Hns & Hnone & _).
  pose proof (locations_range g Hok). pose proof Hok as [].
  intros Hk. replace k with (e + Z.of_nat (Z.to_nat (k - e))) by lia.
  assert (Hd : e + Z.of_nat (Z.to_nat (k - e)) < ns) by lia.
  induction (Z.to_nat (k - e)) as [|d IH].
  - rewrite Z.add_0_r. apply rel_stop0. lia.
  - destruct (vget_bool (inuse g) (e + Z.of_nat (S d)) ltac:(lia)) as [Ht|Hf];
      [|exact Hf].
    assert (Hprev : vget (inuse g) (e + Z.of_nat (S d) - 1) = Done false).
    { replace (e + Z.of_nat (S d) - 1) with (e + Z.of_nat d) by lia.
      apply IH. lia. }
    pose proof (Hrh (e + Z.of_nat (S d)) ltac:(lia) Ht (or_intror Hprev)) as Hs.
    rewrite Hnone in Hs by lia. discriminate.
Qed.

Lemma released_starts k :
  0 <= k -> k <> here -> vget (starts g') k = vget (starts g) k.
Proof.
  intros Hk Hne. destruct Hrel. rewrite rel_starts0.
  apply vget_insert_ne; lia.
Qed.

Lemma released_starts_here :
  here < locations g -> vget (starts g') here = Done false.
Proof.
  intros Hlt. destruct Hrel. rewrite rel_starts0.
  pose proof (locations_range g Hok). destruct Hok.
  apply vget_insert_eq. lia.
Qed.

Lemma released_bits_ok : bits_ok g'.
Proof.
  pose proof released_gap_free as Hgap.
  pose proof released_starts as Hst.
  pose proof released_starts_here as Hsh.
  destruct Hbits as [Hsiu Hrh]. destruct Hrel.
  destruct rel_next0 as (Hns & Hnone & Hat).
  split.
  - intros k Hk Hs. rewrite released_locations in Hk.
    destruct (Z.eq_dec k here) as [->|Hne].
    { rewrite Hsh in Hs by lia. discriminate. }
    rewrite Hst in Hs by lia.
    destruct (Z_lt_le_dec k here) as [Hlt|Hge].
    + rewrite rel_kept0 by lia. apply Hsiu; [lia | exact Hs].
    + destruct (Z_lt_le_dec k ns) as [Hin|Hout].
      * rewrite Hnone in Hs by lia. discriminate.
      * rewrite rel_kept0 by lia. apply Hsiu; [lia | exact Hs].
  - intros k Hk Hu Hprev. rewrite released_locations in Hk.
    assert (Hk1 : k < here \/ e <= k).
    { destruct (Z_lt_le_dec k here); [lia|].
      destruct (Z_lt_le_dec k e); [|lia].
      destruct (rel_cleared0 k ltac:(lia)) as [_ Hc].
      rewrite Hc in Hu. discriminate. }
    rewrite rel_kept0 in Hu by lia.
    assert (Hk2 : k < here \/ ns <= k).
    { destruct Hk1; [lia|]. destruct (Z_lt_le_dec k ns); [|lia].
      rewrite Hgap in Hu by lia. discriminate. }
    rewrite Hst by lia.
    destruct (Z.eq_dec k 0) as [Hk0|Hk0].
    { apply Hrh; [lia | exact Hu | left; exact Hk0]. }
    destruct Hprev as [->|Hprev]; [lia|].
    destruct (Z_lt_le_dec (k - 1) here) as [Hlt|Hge].
    + rewrite rel_kept0 in Hprev by lia.
      apply Hrh; [lia | exact Hu | right; exact Hprev].
    + destruct (Z_lt_le_dec (k - 1) e) as [Hin|Hout].
      * assert (k = ns) as -> by lia. apply Hat. lia.
      * rewrite rel_kept0 in Hprev by lia.
        apply Hrh; [lia | exact Hu | right; exact Hprev].
Qed.
End Released.

(** ** Construction *)

Lemma round_up_cases t m :
  0 < m -> 0 <= t ->
  round_up t m = t + (if 0 <? t mod m then m - t mod m else 0).
Proof.
  intros Hm Ht. unfold round_up.
  pose proof (Z.mod_pos_bound t m Hm) as Hr.
  pose proof (Z.div_mod t m ltac:(lia)) as Hdm.
  destruct (Z.ltb_spec 0 (t mod m)) as [Hpos|Hzero].
  - replace (t + m - 1) with ((t / m + 1) * m + (t mod m - 1)) by lia.
    rewrite Z.div_add_l by lia. rewrite (Z.div_small (t mod m - 1)) by lia. lia.
  - replace (t + m - 1) with (t / m * m + (m - 1)) by lia.
    rewrite Z.div_add_l by lia. rewrite (Z.div_small (m - 1)) by lia. lia.
Qed.

Lemma gpage_ctor_spec total_size_ min_alloc_ addr fresh :
  ctor_ok total_size_ min_alloc_ addr ->
  gpage_ctor total_size_ min_alloc_ addr fresh =
  Done {| total_size := round_up total_size_ min_alloc_;
          min_alloc := min_alloc_;
          storage := addr;
          storage_bytes := fresh;
          inuse := replicate (Z.to_nat (round_up total_size_ min_alloc_)) false;
          starts := replicate (Z.to_nat (round_up total_size_ min_alloc_)) false;
          current_known_request_bound := round_up total_size_ min_alloc_ |}.
Proof.
  intros (Hm & Ht & Hlim & Ha0 & Ha1). unfold gpage_ctor.
  pose proof (Z.mod_pos_bound total_size_ min_alloc_ Hm) as Hr.
  pose proof (round_up_cases total_size_ min_alloc_ Hm Ht) as Hcases.
  assert (Htot : wrap (total_size_ +
            (if 0 <? total_size_ mod min_alloc_
             then wrap (min_alloc_ - total_size_ mod min_alloc_) else 0))
          = round_up total_size_ min_alloc_).
  { rewrite Hcases in *.
    destruct (0 <? total_size_ mod min_alloc_).
    - rewrite (wrap_small (min_alloc_ - _)) by (limits; lia).
      apply wrap_small. limits. lia.
    - apply wrap_small. limits. lia. }
  rewrite Htot.
  assert (Hmul : round_up total_size_ min_alloc_ mod min_alloc_ = 0).
  { unfold round_up. apply Z.mod_mul. lia. }
  rewrite Hmul. simpl assert. rewrite bind_Done. reflexivity.
Qed.

Lemma round_up_range t m :
  0 < m -> 0 <= t -> t <= round_up t m < t + m.
Proof.
  intros Hm Ht. rewrite round_up_cases by lia.
  pose proof (Z.mod_pos_bound t m Hm).
  destruct (Z.ltb_spec 0 (t mod m)); lia.
Qed.

Lemma vget_replicate n b k :
  0 <= k < Z.of_nat n -> vget (replicate n b) k = Done b.
Proof.
  intros Hk. apply vget_lookup, lookup_replicate_2. lia.
Qed.

Lemma gpage_ctor_ok total_size_ min_alloc_ addr fresh g :
  ctor_ok total_size_ min_alloc_ addr ->
  gpage_ctor total_size_ min_alloc_ addr fresh = Done g ->
  page_ok g /\ bits_ok g.
Proof.
  intros Hc Hg. rewrite (gpage_ctor_spec _ _ _ _ Hc) in Hg.
  injection Hg as <-. destruct Hc as (Hm & Ht & Hlim & Ha0 & Ha1).
  pose proof (round_up_range total_size_ min_alloc_ Hm Ht) as Hr.
  assert (Hmul : round_up total_size_ min_alloc_ mod min_alloc_ = 0).
  { unfold round_up. apply Z.mod_mul. lia. }
  split.
  - constructor; simpl; try assumption; try lia.
    + rewrite length_replicate. lia.
    + rewrite length_replicate. lia.
  - assert (Hloc : forall k,
      0 <= k < round_up total_size_ min_alloc_ / min_alloc_ ->
      0 <= k < Z.of_nat (Z.to_nat (round_up total_size_ min_alloc_))).
    { intros k Hk.
      assert (round_up total_size_ min_alloc_ / min_alloc_
              <= round_up total_size_ min_alloc_).
      { apply Z.div_le_upper_bound; [lia | nia]. }
      lia. }
    split.
    + intros k Hk Hs. unfold locations in Hk. simpl in *.
      rewrite vget_replicate in Hs by (apply Hloc; exact Hk). discriminate.
    + intros k Hk Hu _. unfold locations in Hk. simpl in *.
      rewrite vget_replicate in Hu by (apply Hloc; exact Hk). discriminate.
Qed.

(** ** Reachable pages *)

Lemma allocate_post_ok g size_T align_T num r :
  page_ok g -> bits_ok g -> 0 < bytes_of size_T num ->
  allocate_post g size_T align_T num r ->
  page_ok (ret_page r) /\ bits_ok (ret_page r).
Proof.
  intros Hok Hbits Hb Hpost. destruct Hpost; simpl.
  - auto.
  - split; [apply page_ok_set_bound | apply bits_ok_set_bound]; assumption.
  - pose proof (needed_range g Hok size_T num ltac:(lia)) as [Hn _].
    split; [apply page_ok_allocated; assumption|].
    apply bits_ok_allocated; try assumption; lia.
Qed.

Lemma reachable_ok g : reachable g -> page_ok g /\ bits_ok g.
Proof.
  induction 1 as [ts ma addr fresh g Hc Hg
                 | g sz al num r Hreach [Hok Hbits] Hreq Hcall
                 | g p g' Hreach [Hok Hbits] Hcall].
  - eapply gpage_ctor_ok; eassumption.
  - destruct (allocate_spec g sz al num Hok Hreq) as (r' & Hr' & Hpost).
    rewrite Hcall in Hr'. injection Hr' as <-.
    eapply allocate_post_ok; try eassumption. apply Hreq.
  - destruct (deallocate_Done_inv g p g' Hcall) as [[_ ->]|Hlive]; [auto|].
    destruct (deallocate_spec g p Hok Hlive) as (g'' & ns & e & Hd & Hrel).
    rewrite Hcall in Hd. injection Hd as <-.
    pose proof (slot_of_range g p Hok).
    split.
    + eapply released_page_ok; eassumption.
    + eapply released_bits_ok; eassumption.
Qed.

(** ** Lookup after allocation *)

Lemma slot_of_offset_eq g off :
  page_ok g -> 0 <= off < total_size g ->
  slot_of g (storage g + off) = off / min_alloc g.
Proof.
  intros [] Hoff. unfold slot_of.
  replace (storage g + off - storage g) with off by lia.
  rewrite wrap_small by (limits; lia). reflexivity.
Qed.

(** C1 (amended).  On a well-formed page whose start bits sit on in-use slots
    (every reachable page), after a successful [allocate] of
    [S = sizeof(T)*num] bytes returning [p], every address [p + k] with
    [0 <= k < S] that lies below the last byte of the buffer is classified by
    [contains] at slot granularity:
    [in_range_allocated_start] while [p + k] is still in [p]'s own slot
    ([k < min_alloc], which includes [k = 0]), and
    [in_range_allocated_middle] from the next slot on; in both cases the
    reported location is the slot of [p + k] and the reported start is the
    slot of [p]. *)
Theorem contains_after_allocate g size_T align_T num r k :
  page_ok g -> starts_in_use g ->
  0 < align_T <= size_modulus / 2 ->
  allocate size_T align_T num g = Done r ->
  ret_ptr r <> nullptr ->
  0 <= k < bytes_of size_T num ->
  ret_ptr r + k < storage g + total_size g - 1 ->
  contains (ret_ptr r + k) (ret_page r) =
  Done (mk_contains_ret
          (if k <? min_alloc g then in_range_allocated_start
           else in_range_allocated_middle)
          (slot_of g (ret_ptr r + k))
          (slot_of g (ret_ptr r))).
Proof.
  intros Hok Hsiu Ha Hcall Hptr Hk Hlast.
  destruct (allocate_Done_cases g size_T align_T num r Hok ltac:(lia) Ha Hcall)
    as [-> | Hreq]; [contradiction Hptr; reflexivity|].
  destruct (allocate_spec g size_T align_T num Hok Hreq) as (r' & Hr' & Hpost).
  rewrite Hcall in Hr'. injection Hr' as <-.
  destruct Hpost as [ | | i tr Hbound Hfit Hi Hend Hfree Hnd Hin Hff];
    simpl in Hptr; try contradiction.
  simpl ret_ptr in *. simpl ret_page.
  pose proof (needed_range g Hok size_T num ltac:(lia)) as [Hn Hbn].
  pose proof (total_size_slots g Hok) as HT.
  pose proof (locations_range g Hok) as HL.
  pose proof Hok as [Hm Hts Hmul [Hs0 Hs1] Hlu Hls].
  set (needed := needed_of g size_T num) in *.
  set (g' := allocated g i needed).
  assert (Hok' : page_ok g') by (apply page_ok_allocated; exact Hok).
  assert (Hdiv : (i * min_alloc g + k) / min_alloc g = i + k / min_alloc g).
  { rewrite Z.div_add_l by lia. reflexivity. }
  assert (Hkm : 0 <= k / min_alloc g < needed).
  { split; [apply Z.div_pos; lia|]. apply Z.div_lt_upper_bound; lia. }
  assert (Hslot_k : slot_of g (storage g + i * min_alloc g + k)
                    = i + k / min_alloc g).
  { rewrite <- Z.add_assoc, slot_of_offset_eq by (try assumption; nia).
    exact Hdiv. }
  assert (Hslot_p : slot_of g (storage g + i * min_alloc g) = i).
  { rewrite slot_of_offset_eq by (try assumption; nia).
    apply Z.div_mul. lia. }
  rewrite Hslot_k, Hslot_p.
  replace (storage g + i * min_alloc g + k)
    with (storage g' + (i * min_alloc g + k)) by (simpl; lia).
  destruct (Z.ltb_spec k (min_alloc g)) as [Hfirst|Hlater].
  - rewrite (contains_start g' (i * min_alloc g + k) Hok');
      change (min_alloc g') with (min_alloc g); rewrite ?Hdiv;
      rewrite ?(Z.div_small k) by lia; rewrite ?Z.add_0_r.
    + reflexivity.
    + change (total_size g') with (total_size g). nia.
    + apply allocated_inuse_in; try assumption; lia.
    + apply allocated_starts_at; try assumption; lia.
  - assert (1 <= k / min_alloc g).
    { apply Z.div_le_lower_bound; lia. }
    assert (Hoff : 0 <= i * min_alloc g + k < total_size g' - 1).
    { change (total_size g') with (total_size g). nia. }
    rewrite (contains_middle g' (i * min_alloc g + k) Hok' Hoff i);
      change (min_alloc g') with (min_alloc g); rewrite ?Hdiv.
    + reflexivity.
    + apply allocated_inuse_in; try assumption; lia.
    + apply allocated_interior_not_start; try assumption; lia.
    + lia.
    + apply allocated_starts_at; try assumption; lia.
    + intros k' Hk'. apply allocated_interior_not_start; try assumption; lia.
Qed.

(** ** Example pages *)

Lemma ctor_ok_16_4 : ctor_ok 16 4 4096.
Proof. repeat split; by_compute. Defined.

Lemma page_16_4_ctor : gpage_ctor 16 4 4096 (zero_bytes 16) = Done page_16_4.
Proof. vm_compute. reflexivity. Defined.

Lemma page_16_4_ok : page_ok page_16_4 /\ bits_ok page_16_4.
Proof. exact (gpage_ctor_ok _ _ _ _ _ ctor_ok_16_4 page_16_4_ctor). Defined.

Lemma request_8_4_1_ok : request_ok page_16_4 8 4 1.
Proof. constructor; [by_compute | split; by_compute | by_compute]. Defined.

(** Witness for C1: [allocate<T>()] of an 8-byte [T] returns the buffer start,
    and the address 4 bytes further on is reported in the middle of the
    allocation that starts at slot 0. *)
Lemma contains_after_allocate_witness :
  exists r, allocate 8 4 1 page_16_4 = Done r /\
    contains (ret_ptr r + 4) (ret_page r) =
    Done (mk_contains_ret in_range_allocated_middle 1 0).
Proof.
  eexists. split; [vm_compute; reflexivity|].
  etransitivity.
  - apply (contains_after_allocate page_16_4 8 4 1 _ 4).
    + exact (proj1 page_16_4_ok).
    + exact (proj1 (proj2 page_16_4_ok)).
    + split; by_compute.
    + vm_compute. reflexivity.
    + by_compute.
    + split; by_compute.
    + by_compute.
  - vm_compute. reflexivity.
Defined.

(** C1 as stated fails one byte into an allocation: that address is still in
    the allocation's first slot, and [contains] reports a start there, not a
    middle. *)
Lemma contains_first_slot_reports_start :
  exists g r,
    gpage_ctor 16 4 4096 (zero_bytes 16) = Done g /\
    allocate 8 4 1 g = Done r /\
    ret_ptr r <> nullptr /\
    0 < 1 < bytes_of 8 1 /\
    contains (ret_ptr r + 1) (ret_page r) =
    Done (mk_contains_ret in_range_allocated_start 0 0).
Proof.
  eexists. eexists.
  split; [exact page_16_4_ctor|].
  split; [vm_compute; reflexivity|].
  split; [by_compute|].
  split; [split; by_compute|].
  vm_compute. reflexivity.
Qed.

(** The range check of [contains] stops one byte short of the buffer: the last
    byte of a four-byte allocation that fills a four-byte page is reported
    outside the page. *)
Lemma contains_excludes_last_byte :
  exists g r,
    gpage_ctor 4 4 4096 (zero_bytes 4) = Done g /\
    allocate 4 4 1 g = Done r /\
    ret_ptr r = storage g /\
    contains (ret_ptr r + 3) (ret_page r) =
    Done (mk_contains_ret not_in_range 0 0).
Proof.
  do 2 eexists.
  split; [vm_compute; reflexivity|].
  split; [vm_compute; reflexivity|].
  split; reflexivity.
Qed.

(** ** Runs of in-use slots *)

Lemma bits_ok_runs_ok g : bits_ok g -> runs_ok g.
Proof.
  intros [Hsiu Hrh]. split; [exact Hsiu|].
  intros a b (Ha & Hb & Hin & Hprev & _).
  apply Hrh; [lia | apply Hin; lia | exact Hprev].
Qed.

(** C7 (amended).  On every reachable page a start bit is set only on an
    in-use slot and every maximal run of in-use slots has a start bit at its
    first position (further start bits may follow inside the run, one for each
    allocation placed directly behind another).  Every [allocate] of a
    well-formed request and every [deallocate] of a live start returns and
    leaves a page with the same property. *)
Theorem runs_begin_with_start g :
  reachable g ->
  runs_ok g /\
  (forall size_T align_T num, request_ok g size_T align_T num ->
     exists r, allocate size_T align_T num g = Done r /\ runs_ok (ret_page r)) /\
  (forall p, live_start g p ->
     exists g', deallocate p g = Done g' /\ runs_ok g').
Proof.
  intros Hreach. destruct (reachable_ok g Hreach) as [Hok Hbits].
  split; [apply bits_ok_runs_ok; exact Hbits|split].
  - intros size_T align_T num Hreq.
    destruct (allocate_spec g size_T align_T num Hok Hreq) as (r & Hr & _).
    exists r. split; [exact Hr|].
    apply bits_ok_runs_ok, reachable_ok.
    eapply reach_allocate; eassumption.
  - intros p Hlive.
    destruct (deallocate_spec g p Hok Hlive) as (g' & ns & e & Hd & _).
    exists g'. split; [exact Hd|].
    apply bits_ok_runs_ok, reachable_ok.
    eapply reach_deallocate; eassumption.
Qed.

Lemma page_16_4_reachable : reachable page_16_4.
Proof. exact (reach_ctor _ _ _ _ _ ctor_ok_16_4 page_16_4_ctor). Defined.

(** Witness for C7 on the freshly constructed page. *)
Lemma runs_begin_with_start_witness :
  reachable page_16_4 /\
  exists r, allocate 8 4 1 page_16_4 = Done r /\ runs_ok (ret_page r).
Proof.
  split; [exact page_16_4_reachable|].
  exact (proj1 (proj2 (runs_begin_with_start page_16_4 page_16_4_reachable))
           8 4 1 request_8_4_1_ok).
Defined.

Lemma page_two_adjacent_reachable : reachable page_two_adjacent.
Proof.
  assert (H1 : reachable (allocated page_16_4 0 1)).
  { apply (reach_allocate page_16_4 4 4 1
             (mk_allocate_ret 4096 (allocated page_16_4 0 1) [0])).
    - exact page_16_4_reachable.
    - constructor; [by_compute | split; by_compute | by_compute].
    - vm_compute. reflexivity. }
  apply (reach_allocate (allocated page_16_4 0 1) 4 4 1
           (mk_allocate_ret 4100 page_two_adjacent [0; 1])).
  - exact H1.
  - constructor; [by_compute | split; by_compute | by_compute].
  - vm_compute. reflexivity.
Qed.

(** C7 as stated fails as soon as two allocations are adjacent: slots 0 and 1
    form one maximal run of in-use slots that holds two start bits. *)
Lemma adjacent_allocations_share_a_run :
  ~ (forall g, reachable g -> one_start_per_run g).
Proof.
  intros Hall.
  destruct (Hall page_two_adjacent page_two_adjacent_reachable 0 2) as [_ Hnone].
  - split; [lia|]. split; [by_compute|]. split.
    + intros k Hk. assert (k = 0 \/ k = 1) as [-> | ->] by lia; reflexivity.
    + split; [left; reflexivity | right; reflexivity].
  - specialize (Hnone 1 ltac:(lia)). discriminate Hnone.
Qed.

(** ** The bound cache in [allocate] *)

(** C5.  When [bytes_needed = sizeof(T)*num] exceeds the bound cache,
    [allocate] returns null at once: the page is returned as it was and the
    scan has read no entry of [inuse] (and [starts] is never read by
    [allocate]).  This holds on every page, whatever its bitmaps. *)
Theorem allocate_fast_reject g size_T align_T num :
  current_known_request_bound g < wrap (size_T * num) ->
  allocate size_T align_T num g = Done (mk_allocate_ret nullptr g []).
Proof.
  intros Hlt. unfold allocate.
  destruct (Z.ltb_spec (current_known_request_bound g) (wrap (size_T * num)));
    [reflexivity | lia].
Qed.

(** Witness for C5: a 17-byte request on a page whose bound is 16. *)
Lemma allocate_fast_reject_witness :
  allocate 17 1 1 page_16_4 = Done (mk_allocate_ret nullptr page_16_4 []).
Proof. apply (allocate_fast_reject page_16_4 17 1 1). by_compute. Defined.

(** C10.  When [allocate], asked for a nonzero number of bytes, returns null,
    both bitmaps, the buffer and the page's constants are as before the call;
    only the bound cache may have changed, and it has not grown. *)
Theorem allocate_failure_frame g size_T align_T num r :
  page_ok g ->
  0 < bytes_of size_T num -> 0 < align_T <= size_modulus / 2 ->
  allocate size_T align_T num g = Done r ->
  ret_ptr r = nullptr ->
  inuse (ret_page r) = inuse g /\
  starts (ret_page r) = starts g /\
  storage_bytes (ret_page r) = storage_bytes g /\
  storage (ret_page r) = storage g /\
  total_size (ret_page r) = total_size g /\
  min_alloc (ret_page r) = min_alloc g /\
  current_known_request_bound (ret_page r) <= current_known_request_bound g.
Proof.
  intros Hok Hb Ha Hcall Hnull.
  destruct (allocate_Done_cases g size_T align_T num r Hok Hb Ha Hcall)
    as [-> | Hreq]; [simpl; repeat split; lia|].
  destruct (allocate_spec g size_T align_T num Hok Hreq) as (r' & Hr' & Hpost).
  rewrite Hcall in Hr'. injection Hr' as <-.
  destruct Hpost as [ | | i tr Hbound Hfit Hi Hend Hfree Hnd Hin Hff]; simpl in *.
  - repeat split; lia.
  - repeat split; lia.
  - pose proof (total_size_slots g Hok). destruct Hok as [Hm Hts Hmul [Hs0 Hs1] Hlu Hls].
    unfold nullptr in Hnull. nia.
Qed.

(** Witness for C10: an array of 16 one-byte objects needs 5 slots with its
    sentinel; the scan of the four-slot page fails and lowers the bound. *)
Lemma allocate_failure_frame_witness :
  exists r, allocate 1 1 16 page_16_4 = Done r /\
    inuse (ret_page r) = inuse page_16_4 /\
    starts (ret_page r) = starts page_16_4 /\
    current_known_request_bound (ret_page r) <= 16.
Proof.
  eexists. split; [vm_compute; reflexivity|].
  destruct (allocate_failure_frame page_16_4 1 1 16
              (mk_allocate_ret nullptr (set_bound page_16_4 15) []))
    as (H1 & H2 & _ & _ & _ & _ & H3).
  - exact (proj1 page_16_4_ok).
  - by_compute.
  - split; by_compute.
  - vm_compute. reflexivity.
  - reflexivity.
  - split; [exact H1|]. split; [exact H2|]. by_compute.
Defined.

(** ** The bound cache in [deallocate] *)

Lemma next_start_after_unique g here a b :
  page_ok g -> 0 <= here ->
  next_start_after g here a -> next_start_after g here b -> a = b.
Proof.
  intros Hok Hh (Ha & Hna & Hsa) (Hb & Hnb & Hsb).
  destruct (Z.lt_total a b) as [Hlt|[Heq|Hgt]]; [|exact Heq|].
  - specialize (Hsa ltac:(lia)). rewrite Hnb in Hsa by lia. discriminate.
  - specialize (Hsb ltac:(lia)). rewrite Hna in Hsb by lia. discriminate.
Qed.

(** C6.  Deallocating the live start at slot [here], with [next_start] the
    nearest later slot whose start bit is set (the slot count if there is
    none), sets the bound cache to
    [max(previous bound, (next_start - here) * min_alloc)].  The second
    argument of the maximum counts every slot up to the next start, so a free
    gap behind the released allocation is included. *)
Theorem deallocate_relaxes_bound g p next_start :
  page_ok g -> live_start g p ->
  next_start_after g (slot_of g p) next_start ->
  exists g', deallocate p g = Done g' /\
    current_known_request_bound g' =
    Z.max (current_known_request_bound g)
          ((next_start - slot_of g p) * min_alloc g).
Proof.
  intros Hok Hlive Hnext.
  destruct (deallocate_spec g p Hok Hlive) as (g' & ns & e & Hd & Hrel).
  exists g'. split; [exact Hd|].
  pose proof (slot_of_range g p Hok) as Hh.
  rewrite (next_start_after_unique g _ _ _ Hok Hh Hnext (rel_next _ _ _ _ _ Hrel)).
  exact (rel_bound _ _ _ _ _ Hrel).
Qed.

(** [page_gap] arises from four one-slot allocations followed by the release
    of the third. *)
Lemma page_gap_reachable : reachable page_gap.
Proof.
  apply (reach_deallocate
           (allocated (allocated page_two_adjacent 2 1) 3 1) 4104).
  - apply (reach_allocate (allocated page_two_adjacent 2 1) 1 1 1
             (mk_allocate_ret 4108
                (allocated (allocated page_two_adjacent 2 1) 3 1)
                [0; 1; 2; 3])).
    + apply (reach_allocate page_two_adjacent 1 1 1
               (mk_allocate_ret 4104 (allocated page_two_adjacent 2 1)
                  [0; 1; 2])).
      * exact page_two_adjacent_reachable.
      * constructor; [by_compute | split; by_compute | by_compute].
      * vm_compute. reflexivity.
    + constructor; [by_compute | split; by_compute | by_compute].
    + vm_compute. reflexivity.
  - vm_compute. reflexivity.
Qed.

(** Witness for C6: releasing the allocation at slot 1 of [page_gap] raises the
    bound to the 8 bytes of slots 1 and 2, up to the next start at slot 3. *)
Lemma deallocate_relaxes_bound_witness :
  exists g', deallocate 4100 page_gap = Done g' /\
    current_known_request_bound g' = 8.
Proof.
  destruct (deallocate_relaxes_bound page_gap 4100 3) as (g' & Hd & Hb).
  - constructor; try by_compute; split; by_compute.
  - repeat split; by_compute.
  - split; [split; by_compute|]. split.
    + intros k Hk. change (slot_of page_gap 4100) with 1 in Hk.
      assert (k = 2) as -> by lia. reflexivity.
    + intros _. reflexivity.
  - exists g'. split; [exact Hd|]. rewrite Hb. reflexivity.
Defined.

(** ** First fit *)

(** The scan of [allocate] reads no entry of [inuse] twice. *)
Lemma allocate_probes_NoDup g size_T align_T num r :
  page_ok g -> request_ok g size_T align_T num ->
  allocate size_T align_T num g = Done r ->
  NoDup (ret_probes r).
Proof.
  intros Hok Hreq Hcall.
  destruct (allocate_spec g size_T align_T num Hok Hreq) as (r' & Hr' & Hpost).
  rewrite Hcall in Hr'. injection Hr' as <-.
  destruct Hpost; simpl; [constructor | assumption | assumption].
Qed.

Lemma heads_aligned_step_1 v L : heads_aligned v L 1.
Proof. intros s _ _ _. apply Z.mod_1_r. Qed.

Lemma eligible_fits g size_T align_T num c :
  page_ok g -> eligible g size_T align_T num c ->
  bytes_of size_T num <= total_size g.
Proof.
  intros Hok (Hc0 & Hc1 & _). pose proof (total_size_slots g Hok) as HT.
  destruct Hok as [Hm _ _ _ _ _]. unfold needed_of in Hc1.
  pose proof (Z.mul_succ_div_gt (bytes_of size_T num - 1) (min_alloc g) Hm).
  destruct (1 <? num); nia.
Qed.

(** When the bound cache and [std::align] let the request through and every
    run of in-use slots begins on a candidate slot, [allocate] places the
    request on the lowest candidate whose slots are all free. *)
Lemma allocate_lowest_candidate g size_T align_T num c :
  page_ok g -> request_ok g size_T align_T num ->
  bytes_of size_T num <= current_known_request_bound g ->
  (align_T - storage g mod align_T) mod align_T
    <= total_size g - bytes_of size_T num ->
  heads_aligned (inuse g) (locations g) (step_of g align_T) ->
  eligible g size_T align_T num c ->
  free_run (inuse g) c (needed_of g size_T num) ->
  exists i tr,
    allocate size_T align_T num g =
    Done (mk_allocate_ret (storage g + i * min_alloc g)
            (allocated g i (needed_of g size_T num)) tr) /\
    eligible g size_T align_T num i /\
    free_run (inuse g) i (needed_of g size_T num) /\
    (forall c', eligible g size_T align_T num c' ->
       free_run (inuse g) c' (needed_of g size_T num) -> i <= c') /\
    NoDup tr.
Proof.
  intros Hok Hreq Hbound Hroom Hheads Helig Hfree.
  destruct (allocate_spec g size_T align_T num Hok Hreq) as (r & Hr & Hpost).
  destruct Hpost as [Hrej | tr _ _ _ _ Hff
                    | i tr _ Hfit Hi Hend Hrun Hnd Hin Hff].
  - exfalso. destruct Hrej as [Hlt|Hnone]; [lia|].
    unfold std_align in Hnone.
    pose proof (Z.mod_pos_bound (align_T - storage g mod align_T) align_T
                  ltac:(destruct Hreq; lia)).
    destruct (Z.leb_spec (bytes_of size_T num) (total_size g)); [|lia].
    destruct (Z.leb_spec ((align_T - storage g mod align_T) mod align_T)
                (total_size g - bytes_of size_T num)); [|lia].
    discriminate Hnone.
  - exfalso. exact (Hff Hheads c Helig Hfree).
  - destruct (Hff Hheads) as [Hmod Hlow].
    exists i, tr. split; [exact Hr|].
    split; [repeat split; assumption|].
    split; [exact Hrun|]. split; [|exact Hnd].
    intros c' Hc' Hfree'.
    destruct (Z_lt_le_dec c' i) as [Hlt|Hge]; [|exact Hge].
    exfalso. exact (Hlow c' Hc' Hlt Hfree').
Qed.

(** C3 (amended).  Suppose the request passes the bound cache
    ([bytes_needed <= bound]), the buffer is aligned for [T], and every run of
    in-use slots begins on a candidate slot (always so when
    [alignof(T) <= min_alloc], where every slot is a candidate).  If some
    candidate start slot has [locations_needed] free slots, then [allocate]
    succeeds and reserves the lowest such candidate (first fit, not best fit),
    and its scan reads no entry of [inuse] twice. *)
Theorem allocate_first_fit g size_T align_T num c :
  page_ok g ->
  0 < bytes_of size_T num ->
  0 < align_T <= size_modulus / 2 ->
  storage g mod align_T = 0 ->
  bytes_of size_T num <= current_known_request_bound g ->
  heads_aligned (inuse g) (locations g) (step_of g align_T) ->
  eligible g size_T align_T num c ->
  free_run (inuse g) c (needed_of g size_T num) ->
  exists r i,
    allocate size_T align_T num g = Done r /\
    ret_ptr r <> nullptr /\
    ret_ptr r = storage g + i * min_alloc g /\
    ret_page r = allocated g i (needed_of g size_T num) /\
    eligible g size_T align_T num i /\
    free_run (inuse g) i (needed_of g size_T num) /\
    (forall c', eligible g size_T align_T num c' ->
       free_run (inuse g) c' (needed_of g size_T num) -> i <= c') /\
    NoDup (ret_probes r).
Proof.
  intros Hok Hb Ha Hbase Hbound Hheads Helig Hfree.
  assert (Hdiff : (align_T - storage g mod align_T) mod align_T = 0).
  { rewrite Hbase, Z.sub_0_r. apply Z_mod_same_full. }
  pose proof (eligible_fits g size_T align_T num c Hok Helig) as Hfit.
  assert (Hreq : request_ok g size_T align_T num).
  { constructor; [exact Hb | exact Ha |]. rewrite Hdiff. apply Hok. }
  destruct (allocate_lowest_candidate g size_T align_T num c Hok Hreq Hbound
              ltac:(rewrite Hdiff; lia) Hheads Helig Hfree)
    as (i & tr & Hcall & Hi & Hrun & Hlow & Hnd).
  eexists. exists i. split; [exact Hcall|]. simpl.
  split.
  { destruct Hi as (Hi0 & _ & _). destruct Hok as [Hm _ _ [Hs0 _] _ _].
    unfold nullptr. nia. }
  repeat (split; [first [reflexivity | assumption]|]). exact Hnd.
Qed.

(** Witness for C3: an 8-byte request with alignment 4 on the fresh page
    succeeds, on a candidate no higher than slot 0. *)
Lemma allocate_first_fit_witness :
  exists r i, allocate 8 4 1 page_16_4 = Done r /\
    ret_ptr r <> nullptr /\
    ret_ptr r = storage page_16_4 + i * min_alloc page_16_4 /\
    i <= 0 /\
    NoDup (ret_probes r).
Proof.
  assert (Hfree : free_run (inuse page_16_4) 0 (needed_of page_16_4 8 1)).
  { intros k Hk. change (needed_of page_16_4 8 1) with 2 in Hk.
    assert (k = 0 \/ k = 1) as [-> | ->] by lia; reflexivity. }
  assert (Helig : eligible page_16_4 8 4 1 0) by (repeat split; by_compute).
  destruct (allocate_first_fit page_16_4 8 4 1 0)
    as (r & i & Hcall & Hnn & Hptr & _ & _ & _ & Hlow & Hnd).
  - exact (proj1 page_16_4_ok).
  - by_compute.
  - split; by_compute.
  - reflexivity.
  - by_compute.
  - exact (heads_aligned_step_1 _ _).
  - exact Helig.
  - exact Hfree.
  - exists r, i. repeat (split; [assumption|]).
    split; [exact (Hlow 0 Helig Hfree) | exact Hnd].
Defined.

(** C3 as stated fails because of the bound cache.  On a three-slot page
    holding one object in slot 0, a failed request for an array of five bytes
    (three slots with its sentinel) lowers the bound to 4; a five-byte object
    is then refused without a scan although slots 1 and 2 are free. *)
Lemma bound_cache_refuses_free_candidate :
  exists r1 r2 r3,
    gpage_ctor 12 4 4096 (zero_bytes 12) = Done page_12_4 /\
    allocate 1 1 1 page_12_4 = Done r1 /\
    allocate 1 1 5 (ret_page r1) = Done r2 /\
    eligible (ret_page r2) 5 1 1 1 /\
    free_run (inuse (ret_page r2)) 1 (needed_of (ret_page r2) 5 1) /\
    allocate 5 1 1 (ret_page r2) = Done r3 /\
    ret_ptr r3 = nullptr.
Proof.
  eexists. eexists. eexists.
  split; [vm_compute; reflexivity|].
  split; [vm_compute; reflexivity|].
  split; [vm_compute; reflexivity|].
  split; [repeat split; by_compute|].
  split.
  { intros k Hk. simpl ret_page in *.
    match type of Hk with _ <= _ < ?n => change n with 2 in Hk end.
    assert (k = 0 \/ k = 1) as [-> | ->] by lia; reflexivity. }
  split; [vm_compute; reflexivity|].
  reflexivity.
Qed.

(** ** Behaviour at particular inputs *)

(** C2.  With [min_alloc = 4] on a buffer aligned to 8: two 4-byte objects
    take slots 0 and 1 and the first is released.  A request for an 8-byte
    object of alignment 8 probes slot 0, meets the occupied slot 1, skips to
    slot [0 + 1 + 2 = 3] and is placed there, at address [storage + 12], which
    is not a multiple of 8. *)
Theorem allocate_misaligned_after_skip :
  exists g0 r1 r2 g3 r4,
    gpage_ctor 32 4 4096 (zero_bytes 32) = Done g0 /\
    storage g0 mod 8 = 0 /\
    allocate 4 4 1 g0 = Done r1 /\
    allocate 4 4 1 (ret_page r1) = Done r2 /\
    deallocate (ret_ptr r1) (ret_page r2) = Done g3 /\
    allocate 8 8 1 g3 = Done r4 /\
    ret_ptr r4 = storage g0 + 12 /\
    ret_ptr r4 mod 8 = 4 /\
    ret_probes r4 = [0; 1; 3; 4].
Proof.
  do 5 eexists.
  split; [vm_compute; reflexivity|].
  split; [reflexivity|].
  split; [vm_compute; reflexivity|].
  split; [vm_compute; reflexivity|].
  split; [vm_compute; reflexivity|].
  split; [vm_compute; reflexivity|].
  split; [reflexivity|]. split; reflexivity.
Qed.

(** C4.  On [gpage(4, 4)], one slot: a request for an array of two bytes
    (two slots with its sentinel) fails and lowers the bound to 1; a one-byte
    request then succeeds and subtracts the four bytes of its slot from the
    bound, which wraps around to [2^64 - 3], far above [total_size = 4]. *)
Theorem bound_underflows_after_allocate :
  exists g0 r1 r2,
    gpage_ctor 4 4 4096 (zero_bytes 4) = Done g0 /\
    allocate 1 1 2 g0 = Done r1 /\
    ret_ptr r1 = nullptr /\
    current_known_request_bound (ret_page r1) = 1 /\
    allocate 1 1 1 (ret_page r1) = Done r2 /\
    ret_ptr r2 = storage g0 /\
    current_known_request_bound (ret_page r2) = size_modulus - 3 /\
    total_size (ret_page r2) = 4 /\
    ~ (0 <= current_known_request_bound (ret_page r2) <= total_size (ret_page r2)).
Proof.
  do 3 eexists.
  split; [vm_compute; reflexivity|].
  split; [vm_compute; reflexivity|].
  split; [reflexivity|]. split; [reflexivity|].
  split; [vm_compute; reflexivity|].
  split; [reflexivity|]. split; [reflexivity|]. split; [reflexivity|].
  intros [_ H]. vm_compute in H. apply H. reflexivity.
Qed.

(** C9.  The constructor sizes both bitmaps with [total_size] entries, one
    per byte: for [gpage(1024, 4)] each holds 1024 entries while the page has
    [locations() = 256] slots. *)
Theorem bitmaps_have_total_size_entries :
  exists g,
    gpage_ctor 1024 4 4096 (zero_bytes 1024) = Done g /\
    locations g = 256 /\
    length (inuse g) = 1024%nat /\
    length (starts g) = 1024%nat.
Proof.
  eexists. split; [vm_compute; reflexivity|].
  split; [reflexivity|]. split; vm_compute; reflexivity.
Qed.

(** ** The default page *)

Section Default.
Variables (base : Z) (fresh : list byte).
Hypothesis Hbase : 0 < base.
Hypothesis Hend : base + 1024 < size_modulus.

Lemma ctor_ok_1024_4 : ctor_ok 1024 4 base.
Proof.
  unfold ctor_ok. change (round_up 1024 4) with 1024. limits. lia.
Qed.

Lemma fresh_1024_4_ctor : gpage_ctor 1024 4 base fresh = Done (fresh_1024_4 base fresh).
Proof. rewrite (gpage_ctor_spec _ _ _ _ ctor_ok_1024_4). reflexivity. Qed.

Lemma fresh_1024_4_ok :
  page_ok (fresh_1024_4 base fresh) /\ bits_ok (fresh_1024_4 base fresh).
Proof. exact (gpage_ctor_ok _ _ _ _ _ ctor_ok_1024_4 fresh_1024_4_ctor). Qed.

Lemma after_first_ok : page_ok (after_first base fresh).
Proof. apply page_ok_allocated, fresh_1024_4_ok. Qed.

Lemma after_second_ok : page_ok (after_second base fresh).
Proof. apply page_ok_allocated, after_first_ok. Qed.

Lemma align_4_offset : 0 <= (4 - base mod 4) mod 4 < 4.
Proof. apply Z.mod_pos_bound. lia. Qed.

Lemma fresh_1024_4_free k :
  0 <= k < 1024 -> vget (inuse (fresh_1024_4 base fresh)) k = Done false.
Proof. intros Hk. apply vget_replicate. lia. Qed.

Lemma after_first_free k :
  2 <= k < 1024 -> vget (inuse (after_first base fresh)) k = Done false.
Proof.
  intros Hk.
  change (inuse (after_first base fresh))
    with (list_inserts (Z.to_nat 0) (replicate (Z.to_nat 2) true)
            (inuse (fresh_1024_4 base fresh))).
  rewrite vget_fill_out by lia. apply fresh_1024_4_free. lia.
Qed.

Lemma after_first_used k :
  0 <= k < 2 -> vget (inuse (after_first base fresh)) k = Done true.
Proof.
  intros Hk.
  change (inuse (after_first base fresh))
    with (list_inserts (Z.to_nat 0) (replicate (Z.to_nat 2) true)
            (inuse (fresh_1024_4 base fresh))).
  apply vget_fill_in; simpl; lia.
Qed.

Lemma first_allocation :
  exists tr,
    allocate 8 4 1 (fresh_1024_4 base fresh) =
    Done (mk_allocate_ret (base + 0) (after_first base fresh) tr).
Proof.
  pose proof align_4_offset as Hoff.
  assert (Helig : eligible (fresh_1024_4 base fresh) 8 4 1 0)
    by (repeat split; by_compute).
  assert (Hfree : free_run (inuse (fresh_1024_4 base fresh)) 0
                    (needed_of (fresh_1024_4 base fresh) 8 1)).
  { intros k Hk. change (needed_of (fresh_1024_4 base fresh) 8 1) with 2 in Hk.
    apply fresh_1024_4_free. lia. }
  destruct (allocate_lowest_candidate (fresh_1024_4 base fresh) 8 4 1 0)
    as (i & tr & Hcall & (Hi0 & _ & _) & _ & Hlow & _).
  - exact (proj1 fresh_1024_4_ok).
  - constructor; [by_compute | split; by_compute |]. simpl. lia.
  - by_compute.
  - change (bytes_of 8 1) with 8. simpl. lia.
  - exact (heads_aligned_step_1 _ _).
  - exact Helig.
  - exact Hfree.
  - specialize (Hlow 0 Helig Hfree). assert (i = 0) as -> by lia.
    exists tr. exact Hcall.
Qed.

Lemma second_allocation :
  exists tr,
    allocate 4 4 10 (after_first base fresh) =
    Done (mk_allocate_ret (base + 2 * 4) (after_second base fresh) tr).
Proof.
  pose proof align_4_offset as Hoff.
  assert (Helig : eligible (after_first base fresh) 4 4 10 2)
    by (repeat split; by_compute).
  assert (Hfree : free_run (inuse (after_first base fresh)) 2
                    (needed_of (after_first base fresh) 4 10)).
  { intros k Hk. change (needed_of (after_first base fresh) 4 10) with 11 in Hk.
    apply after_first_free. lia. }
  destruct (allocate_lowest_candidate (after_first base fresh) 4 4 10 2)
    as (i & tr & Hcall & (Hi0 & _ & _) & Hrun & Hlow & _).
  - exact after_first_ok.
  - constructor; [by_compute | split; by_compute |]. simpl. lia.
  - by_compute.
  - change (bytes_of 4 10) with 40. simpl. lia.
  - exact (heads_aligned_step_1 _ _).
  - exact Helig.
  - exact Hfree.
  - specialize (Hlow 2 Helig Hfree).
    assert (Hi2 : 2 <= i).
    { destruct (Z_lt_le_dec i 2) as [Hlt|]; [|assumption]. exfalso.
      specialize (Hrun 0).
      change (needed_of (after_first base fresh) 4 10) with 11 in Hrun.
      rewrite Z.add_0_r, after_first_used in Hrun by lia.
      specialize (Hrun ltac:(lia)). discriminate. }
    assert (i = 2) as -> by lia.
    exists tr. exact Hcall.
Qed.

Lemma first_pointer_live : live_start (after_second base fresh) (base + 0).
Proof.
  assert (Hslot : slot_of (after_second base fresh) (base + 0) = 0).
  { unfold slot_of. simpl storage. replace (base + 0 - base) with 0 by lia.
    reflexivity. }
  unfold live_start. rewrite Hslot.
  split; [unfold nullptr; lia|]. split; [by_compute|].
  split; reflexivity.
Qed.

(** C8.  On a freshly constructed [gpage(1024, 4)]: one 8-byte object of
    alignment 4 is placed at [storage + 0] on slots 0 and 1; an array of ten
    4-byte objects then takes the eleven slots 2 to 12 (ten for the data,
    one sentinel), directly behind the first allocation; after the first
    pointer is deallocated, [contains] reports its address as in range and
    unallocated. *)
Theorem default_page_scenario :
  exists p r1 r2 g3,
    gpage_ctor 1024 4 base fresh = Done p /\
    storage p = base /\
    allocate 8 4 1 p = Done r1 /\
    ret_ptr r1 = base + 0 /\
    ret_page r1 = allocated p 0 2 /\
    allocate 4 4 10 (ret_page r1) = Done r2 /\
    ret_ptr r2 = base + 2 * 4 /\
    ret_page r2 = allocated (ret_page r1) 2 11 /\
    deallocate (ret_ptr r1) (ret_page r2) = Done g3 /\
    contains (ret_ptr r1) g3 =
    Done (mk_contains_ret in_range_unallocated 0 0).
Proof.
  destruct first_allocation as (tr1 & H1).
  destruct second_allocation as (tr2 & H2).
  destruct (deallocate_spec (after_second base fresh) (base + 0)
              after_second_ok first_pointer_live)
    as (g3 & ns & e & H3 & Hrel).
  assert (Hslot : slot_of (after_second base fresh) (base + 0) = 0).
  { unfold slot_of. simpl storage. replace (base + 0 - base) with 0 by lia.
    reflexivity. }
  rewrite Hslot in Hrel.
  exists (fresh_1024_4 base fresh),
    (mk_allocate_ret (base + 0) (after_first base fresh) tr1),
    (mk_allocate_ret (base + 2 * 4) (after_second base fresh) tr2), g3.
  split; [exact fresh_1024_4_ctor|].
  split; [reflexivity|].
  split; [exact H1|]. split; [reflexivity|]. split; [reflexivity|].
  split; [exact H2|]. split; [reflexivity|]. split; [reflexivity|].
  split; [exact H3|].
  simpl ret_ptr.
  assert (Hok3 : page_ok g3).
  { exact (released_page_ok (after_second base fresh) g3 0 ns e after_second_ok Hrel). }
  pose proof (rel_storage _ _ _ _ _ Hrel) as Hst.
  pose proof (rel_total_size _ _ _ _ _ Hrel) as Hts.
  pose proof (rel_end _ _ _ _ _ Hrel) as He.
  destruct (rel_cleared _ _ _ _ _ Hrel 0 ltac:(lia)) as [_ Hclr].
  change (storage (after_second base fresh)) with base in Hst.
  change (total_size (after_second base fresh)) with 1024 in Hts.
  assert (Hdiv : 0 / min_alloc g3 = 0) by apply Zdiv_0_l.
  rewrite <- Hst.
  rewrite (contains_unallocated g3 0 Hok3) by (rewrite ?Hdiv; first [lia | exact Hclr]).
  rewrite Hdiv. reflexivity.
Qed.
End Default.

(** Witness for C8, with the buffer at address 4096. *)
Lemma default_page_scenario_witness :
  exists p r1 r2 g3,
    gpage_ctor 1024 4 4096 (zero_bytes 1024) = Done p /\
    allocate 8 4 1 p = Done r1 /\
    ret_ptr r1 = 4096 /\
    allocate 4 4 10 (ret_page r1) = Done r2 /\
    ret_ptr r2 = 4104 /\
    deallocate (ret_ptr r1) (ret_page r2) = Done g3 /\
    contains (ret_ptr r1) g3 = Done (mk_contains_ret in_range_unallocated 0 0).
Proof.
  destruct (default_page_scenario 4096 (zero_bytes 1024))
    as (p & r1 & r2 & g3 & H0 & _ & H1 & Hp1 & _ & H2 & Hp2 & _ & H3 & H4).
  - by_compute.
  - by_compute.
  - exists p, r1, r2, g3. repeat (split; [assumption|]). exact H4.
Defined.

(** * Further properties *)

(** ** Construction, in full *)

Lemma gpage_ctor_shape total_size_ min_alloc_ addr fresh :
  ctor_ok total_size_ min_alloc_ addr ->
  exists g,
    gpage_ctor total_size_ min_alloc_ addr fresh = Done g /\
    total_size_ <= total_size g < total_size_ + min_alloc_ /\
    total_size g mod min_alloc_ = 0 /\
    min_alloc g = min_alloc_ /\
    storage g = addr /\
    storage_bytes g = fresh /\
    current_known_request_bound g = total_size g /\
    locations g = (total_size_ + min_alloc_ - 1) / min_alloc_ /\
    forall k, 0 <= k < total_size g ->
      vget (inuse g) k = Done false /\ vget (starts g) k = Done false.
Proof.
  intros Hc. pose proof Hc as (Hm & Ht & _).
  eexists. split; [apply gpage_ctor_spec; exact Hc|]. simpl.
  pose proof (round_up_range total_size_ min_alloc_ Hm Ht) as Hr.
  split; [exact Hr|].
  split; [unfold round_up; apply Z.mod_mul; lia|].
  repeat (split; [reflexivity|]).
  split; [unfold locations, round_up; simpl; apply Z.div_mul; lia|].
  intros k Hk. split; apply vget_replicate; lia.
Qed.

(** X1.  For admissible arguments the constructor returns a page whose
    [total_size] is the requested size rounded up to the next multiple of
    [min_alloc] (less than one granule is added), with [locations()] equal to
    the ceiling of [total_size_ / min_alloc_], every bitmap entry clear and the
    bound cache equal to [total_size]. *)
Theorem gpage_ctor_rounds_up total_size_ min_alloc_ addr fresh :
  ctor_ok total_size_ min_alloc_ addr ->
  exists g,
    gpage_ctor total_size_ min_alloc_ addr fresh = Done g /\
    total_size_ <= total_size g < total_size_ + min_alloc_ /\
    total_size g mod min_alloc_ = 0 /\
    min_alloc g = min_alloc_ /\
    storage g = addr /\
    storage_bytes g = fresh /\
    current_known_request_bound g = total_size g /\
    locations g = (total_size_ + min_alloc_ - 1) / min_alloc_ /\
    forall k, 0 <= k < total_size g ->
      vget (inuse g) k = Done false /\ vget (starts g) k = Done false.
Proof. exact (gpage_ctor_shape total_size_ min_alloc_ addr fresh). Qed.

Lemma gpage_ctor_rounds_up_witness :
  exists g, gpage_ctor 10 4 4096 (zero_bytes 12) = Done g /\
    total_size g = 12 /\ locations g = 3.
Proof.
  destruct (gpage_ctor_rounds_up 10 4 4096 (zero_bytes 12))
    as (g & Hg & _).
  - repeat split; by_compute.
  - exists g. split; [exact Hg|].
    assert (Hg' := Hg). vm_compute in Hg'. injection Hg' as <-.
    split; reflexivity.
Defined.

(** ** [contains] on a page that satisfies the invariant *)

Lemma allocation_start_exists g :
  page_ok g -> bits_ok g ->
  forall n : nat, Z.of_nat n < locations g ->
    vget (inuse g) (Z.of_nat n) = Done true ->
    exists s0, 0 <= s0 <= Z.of_nat n /\
      vget (starts g) s0 = Done true /\
      forall k, s0 < k <= Z.of_nat n ->
        vget (inuse g) k = Done true /\ vget (starts g) k = Done false.
Proof.
  intros Hok [Hsiu Hrh]. pose proof (locations_range g Hok) as HL.
  pose proof Hok as [Hm Hts Hmul Hst Hlu Hls].
  induction n as [|n IH]; intros Hlt Hu.
  - exists 0. split; [lia|]. split.
    + apply Hrh; [lia | exact Hu | left; reflexivity].
    + intros k Hk. lia.
  - destruct (vget_bool (starts g) (Z.of_nat (S n)) ltac:(lia)) as [Hs|Hs].
    { exists (Z.of_nat (S n)). split; [lia|]. split; [exact Hs|].
      intros k Hk. lia. }
    assert (Hprev : vget (inuse g) (Z.of_nat n) = Done true).
    { destruct (vget_bool (inuse g) (Z.of_nat n) ltac:(lia)) as [H|H]; [exact H|].
      assert (Hhead : vget (starts g) (Z.of_nat (S n)) = Done true).
      { apply Hrh; [lia | exact Hu | right].
        replace (Z.of_nat (S n) - 1) with (Z.of_nat n) by lia. exact H. }
      rewrite Hs in Hhead. discriminate. }
    destruct (IH ltac:(lia) Hprev) as (s0 & Hs0 & Hstart & Hbetween).
    exists s0. split; [lia|]. split; [exact Hstart|].
    intros k Hk. destruct (Z.eq_dec k (Z.of_nat (S n))) as [->|Hne].
    + split; assumption.
    + apply Hbetween. lia.
Qed.

Lemma contains_outside g p :
  page_ok g -> ~ in_page_range g p ->
  contains p g = Done (mk_contains_ret not_in_range 0 0).
Proof.
  intros [Hm Hts Hmul [Hs0 Hs1] Hlu Hls] Hout. unfold in_page_range in Hout.
  unfold contains.
  assert (Hend : wrap (storage g + wrap (total_size g - 1)) =
                 storage g + total_size g - 1).
  { destruct (Z.eq_dec (total_size g) 0) as [H0|H0].
    - rewrite H0. unfold wrap. rewrite Zplus_mod_idemp_r.
      replace (storage g + (0 - 1)) with (storage g + 0 - 1) by lia.
      apply Z.mod_small. limits. lia.
    - rewrite (wrap_small (total_size g - 1)) by (limits; lia).
      rewrite wrap_small by (limits; lia). lia. }
  rewrite Hend.
  destruct (Z.leb_spec (storage g) p); simpl; [|reflexivity].
  destruct (Z.ltb_spec p (storage g + total_size g - 1)); simpl; [lia|reflexivity].
Qed.

Lemma contains_classifies_inside g off :
  page_ok g -> bits_ok g -> 0 <= off < total_size g - 1 ->
  exists c, contains (storage g + off) g = Done c /\
            classified g (storage g + off) c.
Proof.
  intros Hok Hbits Hoff.
  assert (Hrange : in_page_range g (storage g + off))
    by (unfold in_page_range; lia).
  pose proof (slot_of_offset_eq g off Hok ltac:(lia)) as Hslot.
  pose proof (slot_of_offset g Hok off ltac:(lia)) as Hw.
  rewrite <- Hslot in Hw.
  pose proof (locations_range g Hok) as HL.
  pose proof Hok as [Hm Hts Hmul Hst Hlu Hls].
  destruct (vget_bool (inuse g) (slot_of g (storage g + off)) ltac:(lia))
    as [Hu|Hu].
  2:{ eexists. split.
      - apply contains_unallocated; [exact Hok | lia |]. rewrite <- Hslot. exact Hu.
      - unfold classified. simpl. rewrite <- Hslot.
        repeat split; assumption || lia. }
  destruct (vget_bool (starts g) (slot_of g (storage g + off)) ltac:(lia))
    as [Hs|Hs].
  { eexists. split.
    - apply contains_start; [exact Hok | lia | |]; rewrite <- Hslot; assumption.
    - unfold classified. simpl. rewrite <- Hslot.
      repeat split; assumption || lia. }
  destruct (allocation_start_exists g Hok Hbits
              (Z.to_nat (slot_of g (storage g + off))))
    as (s0 & Hs0 & Hstart & Hbetween);
    rewrite ?Z2Nat.id by lia; try assumption; try lia.
  rewrite Z2Nat.id in * by lia.
  assert (s0 <> slot_of g (storage g + off)).
  { intros ->. rewrite Hs in Hstart. discriminate. }
  eexists. split.
  - apply (contains_middle g off Hok ltac:(lia) s0);
      rewrite <- ?Hslot; try assumption; try lia.
    intros k Hk. apply Hbetween. lia.
  - unfold classified. simpl. rewrite <- Hslot.
    split; [assumption|]. split; [reflexivity|]. split; [lia|].
    split; assumption.
Qed.

(** X2.  On a well-formed page that satisfies the bitmap invariant,
    [contains] returns for every pointer: its assertion never fails and it
    reads no bitmap entry out of range.  The result is [not_in_range] exactly
    for pointers outside [storage, storage + total_size - 1); otherwise it
    names the pointer's slot and tells free from in-use, and for a middle slot
    the reported start carries a start bit and every slot from there to the
    pointer's slot is in use with no further start bit. *)
Theorem contains_classifies g p :
  page_ok g -> bits_ok g ->
  exists c, contains p g = Done c /\ classified g p c.
Proof.
  intros Hok Hbits.
  destruct (Z_lt_le_dec p (storage g)) as [Hlow|Hge].
  { eexists. split; [apply contains_outside; [exact Hok|]|].
    - unfold in_page_range. lia.
    - unfold classified, in_page_range. simpl. repeat split; lia. }
  destruct (Z_lt_le_dec p (storage g + total_size g - 1)) as [Hin|Hhigh].
  2:{ eexists. split; [apply contains_outside; [exact Hok|]|].
      - unfold in_page_range. lia.
      - unfold classified, in_page_range. simpl. repeat split; lia. }
  replace p with (storage g + (p - storage g)) by lia.
  apply contains_classifies_inside; [assumption | assumption | lia].
Qed.

Lemma contains_classifies_witness :
  exists c, contains 4100 page_gap = Done c /\ classified page_gap 4100 c.
Proof.
  apply (contains_classifies page_gap 4100).
  - constructor; try by_compute; split; by_compute.
  - exact (proj2 (reachable_ok _ page_gap_reachable)).
Defined.

(** ** [location_info] *)

(** X3.  For a slot index below [locations()], [location_info] returns the
    slot's start bit and the address [storage + where * min_alloc]; that
    address falls in slot [where] again, and when the start bit is set (and
    the address is below the last byte) [contains] reports it as the start of
    the allocation at [where]. *)
Theorem location_info_contains g where_ :
  page_ok g -> starts_in_use g -> 0 <= where_ < locations g ->
  exists b,
    location_info where_ g =
    Done (mk_location_info_ret b (storage g + where_ * min_alloc g)) /\
    vget (starts g) where_ = Done b /\
    slot_of g (storage g + where_ * min_alloc g) = where_ /\
    (b = true -> where_ * min_alloc g < total_size g - 1 ->
     contains (storage g + where_ * min_alloc g) g =
     Done (mk_contains_ret in_range_allocated_start where_ where_)).
Proof.
  intros Hok Hsiu Hw.
  pose proof (locations_range g Hok) as HL.
  pose proof (total_size_slots g Hok) as HT.
  pose proof Hok as [Hm Hts Hmul [Hs0 Hs1] Hlu Hls].
  destruct (vget_in_range (starts g) where_ ltac:(lia)) as [b Hb].
  exists b. unfold location_info. rewrite Hb, bind_Done.
  rewrite (wrap_small (where_ * min_alloc g)) by (limits; nia).
  rewrite (wrap_small (storage g + _)) by (limits; nia).
  split; [reflexivity|]. split; [reflexivity|].
  assert (Hdiv : where_ * min_alloc g / min_alloc g = where_)
    by (apply Z.div_mul; lia).
  split.
  - rewrite slot_of_offset_eq by (try assumption; nia). exact Hdiv.
  - intros -> Hlast.
    rewrite (contains_start g (where_ * min_alloc g) Hok);
      rewrite ?Hdiv; try reflexivity; try assumption; try nia.
    apply Hsiu; [lia | exact Hb].
Qed.

Lemma location_info_contains_witness :
  contains (storage page_gap + 1 * min_alloc page_gap) page_gap =
  Done (mk_contains_ret in_range_allocated_start 1 1).
Proof.
  destruct (location_info_contains page_gap 1) as (b & _ & Hb & _ & Hc).
  - constructor; try by_compute; split; by_compute.
  - exact (proj1 (proj2 (reachable_ok _ page_gap_reachable))).
  - split; by_compute.
  - apply Hc; [|by_compute].
    vm_compute in Hb. injection Hb as <-. reflexivity.
Defined.

(** ** What a successful [allocate] hands out *)

Lemma allocate_block_facts g size_T align_T num r :
  page_ok g ->
  0 < bytes_of size_T num -> 0 < align_T <= size_modulus / 2 ->
  allocate size_T align_T num g = Done r ->
  ret_ptr r <> nullptr ->
  exists i,
    ret_ptr r = storage g + i * min_alloc g /\
    0 <= i /\ i + needed_of g size_T num <= locations g /\
    bytes_of size_T num <= min_alloc g * needed_of g size_T num /\
    ret_ptr r + min_alloc g * needed_of g size_T num
      <= storage g + total_size g /\
    free_run (inuse g) i (needed_of g size_T num) /\
    (forall k, 0 <= k ->
       vget (inuse (ret_page r)) k =
       if (i <=? k) && (k <? i + needed_of g size_T num)
       then Done true else vget (inuse g) k) /\
    (forall k, 0 <= k ->
       vget (starts (ret_page r)) k =
       if k =? i then Done true else vget (starts g) k).
Proof.
  intros Hok Hb Ha Hcall Hptr.
  destruct (allocate_Done_cases g size_T align_T num r Hok Hb Ha Hcall)
    as [-> | Hreq]; [contradiction Hptr; reflexivity|].
  destruct (allocate_spec g size_T align_T num Hok Hreq) as (r' & Hr' & Hpost).
  rewrite Hcall in Hr'. injection Hr' as <-.
  destruct Hpost as [ | | i tr Hbound Hfit Hi Hend Hfree Hnd Hin Hff];
    simpl in Hptr; try contradiction.
  pose proof (needed_range g Hok size_T num ltac:(lia)) as [Hn Hbn].
  pose proof (total_size_slots g Hok) as HT.
  pose proof Hok as [Hm Hts Hmul [Hs0 Hs1] Hlu Hls].
  exists i. simpl ret_ptr. simpl ret_page.
  split; [reflexivity|]. split; [exact Hi|]. split; [exact Hend|].
  split; [exact Hbn|]. split; [nia|]. split; [exact Hfree|].
  split.
  - intros k Hk.
    destruct (Z.leb_spec i k); destruct (Z.ltb_spec k (i + needed_of g size_T num));
      simpl andb; cbv iota.
    + apply allocated_inuse_in; try assumption; lia.
    + apply allocated_inuse_out; lia.
    + apply allocated_inuse_out; lia.
    + apply allocated_inuse_out; lia.
  - intros k Hk. destruct (Z.eqb_spec k i) as [->|Hne].
    + apply allocated_starts_at; try assumption; lia.
    + apply allocated_starts_other; lia.
Qed.

(** X4.  A successful [allocate] returns the address of a slot [i]; the
    [locations_needed] slots from [i] on lie inside the page, cover the
    requested bytes, and were all free before the call.  Afterwards exactly
    these slots are added to [inuse] and exactly slot [i] is added to
    [starts]: no slot of another allocation is touched. *)
Theorem allocate_block g size_T align_T num r :
  page_ok g ->
  0 < bytes_of size_T num -> 0 < align_T <= size_modulus / 2 ->
  allocate size_T align_T num g = Done r ->
  ret_ptr r <> nullptr ->
  exists i,
    ret_ptr r = storage g + i * min_alloc g /\
    0 <= i /\ i + needed_of g size_T num <= locations g /\
    bytes_of size_T num <= min_alloc g * needed_of g size_T num /\
    ret_ptr r + min_alloc g * needed_of g size_T num
      <= storage g + total_size g /\
    free_run (inuse g) i (needed_of g size_T num) /\
    (forall k, 0 <= k ->
       vget (inuse (ret_page r)) k =
       if (i <=? k) && (k <? i + needed_of g size_T num)
       then Done true else vget (inuse g) k) /\
    (forall k, 0 <= k ->
       vget (starts (ret_page r)) k =
       if k =? i then Done true else vget (starts g) k).
Proof. exact (allocate_block_facts g size_T align_T num r). Qed.

Lemma allocate_block_witness :
  exists r i, allocate 8 4 1 page_16_4 = Done r /\
    ret_ptr r = storage page_16_4 + i * min_alloc page_16_4 /\
    free_run (inuse page_16_4) i (needed_of page_16_4 8 1).
Proof.
  eexists.
  destruct (allocate_block page_16_4 8 4 1
              (mk_allocate_ret 4096 (allocated page_16_4 0 2) [0; 1]))
    as (i & Hp & _ & _ & _ & _ & Hfree & _).
  - exact (proj1 page_16_4_ok).
  - by_compute.
  - split; by_compute.
  - vm_compute. reflexivity.
  - by_compute.
  - exists i. split; [vm_compute; reflexivity|]. split; assumption.
Defined.

(** ** Every byte of the reserved slots belongs to the allocation *)

Lemma contains_reserved_bytes g size_T align_T num r k :
  page_ok g -> starts_in_use g ->
  0 < bytes_of size_T num -> 0 < align_T <= size_modulus / 2 ->
  allocate size_T align_T num g = Done r ->
  ret_ptr r <> nullptr ->
  0 <= k < min_alloc g * needed_of g size_T num ->
  ret_ptr r + k < storage g + total_size g - 1 ->
  contains (ret_ptr r + k) (ret_page r) =
  Done (mk_contains_ret
          (if k <? min_alloc g then in_range_allocated_start
           else in_range_allocated_middle)
          (slot_of g (ret_ptr r) + k / min_alloc g)
          (slot_of g (ret_ptr r))).
Proof.
  intros Hok Hsiu Hb Ha Hcall Hptr Hk Hlast.
  destruct (allocate_block_facts g size_T align_T num r Hok Hb Ha Hcall Hptr)
    as (i & Hp & Hi & Hend & Hbn & Hin & Hfree & Hinuse & Hstarts).
  pose proof (total_size_slots g Hok) as HT.
  pose proof (locations_range g Hok) as HL.
  pose proof Hok as [Hm Hts Hmul [Hs0 Hs1] Hlu Hls].
  set (needed := needed_of g size_T num) in *.
  assert (Hconst : total_size (ret_page r) = total_size g /\
                   min_alloc (ret_page r) = min_alloc g /\
                   storage (ret_page r) = storage g /\
                   page_ok (ret_page r)).
  { destruct (allocate_Done_cases g size_T align_T num r Hok Hb Ha Hcall)
      as [-> | Hreq]; [contradiction Hptr; reflexivity|].
    destruct (allocate_spec g size_T align_T num Hok Hreq) as (r' & Hr' & Hpost).
    rewrite Hcall in Hr'. injection Hr' as <-.
    destruct Hpost; simpl in Hptr; try contradiction.
    simpl. repeat (split; [reflexivity|]).
    apply page_ok_allocated. exact Hok. }
  destruct Hconst as (HcT & Hcm & Hcs & Hok').
  assert (Hslot_p : slot_of g (ret_ptr r) = i).
  { rewrite Hp, slot_of_offset_eq by (try assumption; nia).
    apply Z.div_mul. lia. }
  rewrite Hslot_p.
  assert (Hdiv : (i * min_alloc g + k) / min_alloc g = i + k / min_alloc g).
  { rewrite Z.div_add_l by lia. reflexivity. }
  assert (Hkm : 0 <= k / min_alloc g < needed).
  { split; [apply Z.div_pos; lia|]. apply Z.div_lt_upper_bound; lia. }
  assert (Hstart_i : vget (starts (ret_page r)) i = Done true).
  { rewrite Hstarts by lia. rewrite Z.eqb_refl. reflexivity. }
  assert (Hused : forall j, i <= j < i + needed ->
                    vget (inuse (ret_page r)) j = Done true).
  { intros j Hj. rewrite Hinuse by lia.
    destruct (Z.leb_spec i j); [|lia].
    destruct (Z.ltb_spec j (i + needed)); [reflexivity|lia]. }
  assert (Hinner : forall j, i < j < i + needed ->
                     vget (starts (ret_page r)) j = Done false).
  { intros j Hj. rewrite Hstarts by lia.
    destruct (Z.eqb_spec j i); [lia|].
    destruct (vget_bool (starts g) j ltac:(lia)) as [Ht|Hf]; [|exact Hf].
    apply Hsiu in Ht; [|lia].
    replace j with (i + (j - i)) in Ht by lia.
    rewrite Hfree in Ht by lia. discriminate. }
  replace (ret_ptr r + k)
    with (storage (ret_page r) + (i * min_alloc g + k)) by (rewrite Hcs; lia).
  assert (Hoff : 0 <= i * min_alloc g + k < total_size (ret_page r) - 1)
    by (rewrite HcT; nia).
  destruct (Z.ltb_spec k (min_alloc g)) as [Hfirst|Hlater].
  - rewrite (contains_start (ret_page r) (i * min_alloc g + k) Hok' Hoff);
      rewrite ?Hcm, ?Hdiv; rewrite ?(Z.div_small k) by lia; rewrite ?Z.add_0_r.
    + reflexivity.
    + apply Hused. lia.
    + exact Hstart_i.
  - assert (1 <= k / min_alloc g) by (apply Z.div_le_lower_bound; lia).
    rewrite (contains_middle (ret_page r) (i * min_alloc g + k) Hok' Hoff i);
      rewrite ?Hcm, ?Hdiv.
    + reflexivity.
    + apply Hused. lia.
    + apply Hinner. lia.
    + lia.
    + exact Hstart_i.
    + intros j Hj. apply Hinner. lia.
Qed.

(** X5.  After a successful [allocate], every byte of every slot it
    reserved (the requested bytes, the padding up to the slot boundary and the
    sentinel slot of an array), when below the last byte of the buffer, is
    attributed by [contains] to the new allocation. *)
Theorem contains_in_block g size_T align_T num r k :
  page_ok g -> starts_in_use g ->
  0 < bytes_of size_T num -> 0 < align_T <= size_modulus / 2 ->
  allocate size_T align_T num g = Done r ->
  ret_ptr r <> nullptr ->
  0 <= k < min_alloc g * needed_of g size_T num ->
  ret_ptr r + k < storage g + total_size g - 1 ->
  contains (ret_ptr r + k) (ret_page r) =
  Done (mk_contains_ret
          (if k <? min_alloc g then in_range_allocated_start
           else in_range_allocated_middle)
          (slot_of g (ret_ptr r) + k / min_alloc g)
          (slot_of g (ret_ptr r))).
Proof. exact (contains_reserved_bytes g size_T align_T num r k). Qed.

Lemma contains_in_block_witness :
  contains (4096 + 3) (allocated page_16_4 0 2) =
  Done (mk_contains_ret in_range_allocated_start 0 0).
Proof.
  etransitivity.
  - apply (contains_in_block page_16_4 1 1 2
             (mk_allocate_ret 4096 (allocated page_16_4 0 2) [0; 1]) 3).
    + exact (proj1 page_16_4_ok).
    + exact (proj1 (proj2 page_16_4_ok)).
    + by_compute.
    + split; by_compute.
    + vm_compute. reflexivity.
    + by_compute.
    + split; by_compute.
    + by_compute.
  - vm_compute. reflexivity.
Defined.

(** X6.  For an array allocation ([num > 1]) the one-past-the-end address
    [p + sizeof(T)*num] still belongs to the allocation: [contains] reports it
    as allocated with the start slot of [p] (when it is below the last byte of
    the buffer). *)
Theorem one_past_the_end_is_inside g size_T align_T num r :
  page_ok g -> starts_in_use g ->
  0 < bytes_of size_T num -> 0 < align_T <= size_modulus / 2 ->
  1 < num ->
  allocate size_T align_T num g = Done r ->
  ret_ptr r <> nullptr ->
  ret_ptr r + bytes_of size_T num < storage g + total_size g - 1 ->
  exists c,
    contains (ret_ptr r + bytes_of size_T num) (ret_page r) = Done c /\
    (found c = in_range_allocated_start \/
     found c = in_range_allocated_middle) /\
    start_location c = slot_of g (ret_ptr r).
Proof.
  intros Hok Hsiu Hb Ha Hnum Hcall Hptr Hlast.
  assert (Hin : bytes_of size_T num < min_alloc g * needed_of g size_T num).
  { unfold needed_of. destruct Hok as [Hm _ _ _ _ _].
    destruct (Z.ltb_spec 1 num); [|lia].
    pose proof (Z.mul_succ_div_gt (bytes_of size_T num - 1) (min_alloc g) Hm).
    nia. }
  eexists. split.
  - apply (contains_reserved_bytes g size_T align_T num r (bytes_of size_T num));
      try assumption. lia.
  - simpl. split; [|reflexivity].
    destruct (bytes_of size_T num <? min_alloc g); auto.
Qed.

Lemma one_past_the_end_is_inside_witness :
  exists c,
    contains (4096 + 8) (allocated page_16_4 0 3) = Done c /\
    start_location c = 0.
Proof.
  destruct (one_past_the_end_is_inside page_16_4 4 4 2
              (mk_allocate_ret 4096 (allocated page_16_4 0 3) [0; 1; 2]))
    as (c & Hc & _ & Hs).
  - exact (proj1 page_16_4_ok).
  - exact (proj1 (proj2 page_16_4_ok)).
  - by_compute.
  - split; by_compute.
  - by_compute.
  - vm_compute. reflexivity.
  - by_compute.
  - by_compute.
  - exists c. split; [exact Hc|]. rewrite Hs. reflexivity.
Defined.

(** ** deallocate: what it frees, what it refuses *)

Lemma vget_ext (v v' : list bool) :
  length v = length v' ->
  (forall k, 0 <= k < Z.of_nat (length v) -> vget v k = vget v' k) ->
  v = v'.
Proof.
  intros Hlen Hall. apply list_eq. intros j.
  destruct (Nat.lt_ge_cases j (length v)) as [Hlt|Hge].
  - specialize (Hall (Z.of_nat j) ltac:(lia)). unfold vget in Hall.
    rewrite Nat2Z.id in Hall.
    destruct (lookup_lt_is_Some_2 v j Hlt) as [b Hb].
    destruct (lookup_lt_is_Some_2 v' j ltac:(lia)) as [b' Hb'].
    rewrite Hb, Hb' in *. congruence.
  - rewrite (lookup_ge_None_2 v j Hge).
    rewrite (lookup_ge_None_2 v' j ltac:(lia)). reflexivity.
Qed.

(** X7.  [deallocate] of a live start at slot [here] leaves no in-use slot
    and no start bit in [here .. next_start - 1], leaves both bitmaps as they
    were everywhere else, and never lowers the bound cache. *)
Theorem deallocate_frees_one_allocation g p :
  page_ok g -> bits_ok g -> live_start g p ->
  exists g' next_start,
    deallocate p g = Done g' /\
    next_start_after g (slot_of g p) next_start /\
    (forall k, slot_of g p <= k < next_start ->
       vget (inuse g') k = Done false /\ vget (starts g') k = Done false) /\
    (forall k, 0 <= k -> k < slot_of g p \/ next_start <= k ->
       vget (inuse g') k = vget (inuse g) k /\
       vget (starts g') k = vget (starts g) k) /\
    current_known_request_bound g <= current_known_request_bound g'.
Proof.
  intros Hok Hbits Hlive.
  destruct (deallocate_spec g p Hok Hlive) as (g' & ns & e & Hd & Hrel).
  pose proof (slot_of_range g p Hok) as Hh.
  pose proof (released_gap_free g g' _ ns e Hok Hbits Hh Hrel) as Hgap.
  pose proof (released_starts g g' _ ns e Hh Hrel) as Hst.
  pose proof (released_starts_here g g' _ ns e Hok Hh Hrel) as Hsh.
  pose proof Hrel as [_ _ _ _ _ Hbound Hnext Hend _ Hclr _ Hkept].
  destruct Hnext as (Hns & Hnone & Hat).
  exists g', ns. split; [exact Hd|].
  split; [exact (conj Hns (conj Hnone Hat))|].
  split; [|split].
  - intros k Hk. split.
    + destruct (Z_lt_le_dec k e) as [Hlt|Hge].
      * apply Hclr. lia.
      * rewrite Hkept by lia. apply Hgap. lia.
    + destruct (Z.eq_dec k (slot_of g p)) as [->|Hne].
      * apply Hsh. lia.
      * rewrite Hst by lia. apply Hnone. lia.
  - intros k Hk0 Hk. split.
    + apply Hkept; lia.
    + apply Hst; lia.
  - rewrite Hbound. lia.
Qed.

Lemma page_gap_page_ok : page_ok page_gap.
Proof. constructor; try by_compute; split; by_compute. Defined.

Lemma page_gap_live_4100 : live_start page_gap 4100.
Proof. repeat split; by_compute. Defined.

Lemma deallocate_frees_one_allocation_witness :
  exists g', deallocate 4100 page_gap = Done g' /\
    vget (inuse g') 1 = Done false /\
    vget (inuse g') 3 = Done true.
Proof.
  destruct (deallocate_frees_one_allocation page_gap 4100)
    as (g' & ns & Hd & Hnext & Hfree & Hkept & _).
  - exact page_gap_page_ok.
  - exact (proj2 (reachable_ok _ page_gap_reachable)).
  - exact page_gap_live_4100.
  - assert (Hns : ns = 3).
    { apply (next_start_after_unique page_gap 1 ns 3 page_gap_page_ok);
        [lia | exact Hnext |].
      split; [split; by_compute|]. split.
      - intros k Hk. assert (k = 2) as -> by lia. reflexivity.
      - intros _. reflexivity. }
    subst ns. exists g'. split; [exact Hd|]. split.
    + apply (Hfree 1). split; by_compute.
    + rewrite (proj1 (Hkept 3 ltac:(lia) ltac:(right; lia))). reflexivity.
Defined.

Lemma deallocate_not_live g p :
  page_ok g -> p <> nullptr -> ~ live_start g p ->
  deallocate p g = Fault assertion_failed.
Proof.
  intros Hok Hp Hnot.
  pose proof (slot_of_range g p Hok) as Hh.
  pose proof (locations_range g Hok) as HL.
  pose proof Hok as [Hm Hts Hmul [Hs0 Hs1] Hlu Hls].
  unfold deallocate. fold (slot_of g p).
  destruct (Z.eqb_spec p nullptr) as [|_]; [contradiction|].
  destruct (Z.leb_spec 0 (slot_of g p)); [|lia].
  destruct (Z.ltb_spec (slot_of g p) (locations g)) as [Hlt|Hge];
    [|reflexivity].
  simpl andb. simpl assert. rewrite bind_Done.
  destruct (vget_in_range (starts g) (slot_of g p) ltac:(lia)) as [s Hs].
  rewrite Hs, bind_Done. destruct s; [|reflexivity].
  simpl assert. rewrite bind_Done.
  destruct (vget_in_range (inuse g) (slot_of g p) ltac:(lia)) as [u Hu].
  rewrite Hu, bind_Done. destruct u; [|reflexivity].
  exfalso. apply Hnot. repeat split; assumption.
Qed.



(** X9.  Deallocating the same pointer twice in a row fails the assertion
    on the start bit the second time. *)
Theorem double_free_is_refused g p :
  page_ok g -> live_start g p ->
  exists g', deallocate p g = Done g' /\
             deallocate p g' = Fault assertion_failed.
Proof.
  intros Hok Hlive.
  destruct (deallocate_spec g p Hok Hlive) as (g' & ns & e & Hd & Hrel).
  exists g'. split; [exact Hd|].
  pose proof (slot_of_range g p Hok) as Hh.
  assert (Hok' : page_ok g') by (eapply released_page_ok; eassumption).
  apply deallocate_not_live; [exact Hok' | apply Hlive |].
  assert (Hslot : slot_of g' p = slot_of g p).
  { unfold slot_of. rewrite (rel_storage _ _ _ _ _ Hrel).
    rewrite (rel_min_alloc _ _ _ _ _ Hrel). reflexivity. }
  intros (_ & _ & Hs & _). rewrite Hslot in Hs.
  rewrite (released_starts_here g g' _ ns e Hok Hh Hrel) in Hs by apply Hlive.
  discriminate Hs.
Qed.

Lemma double_free_is_refused_witness :
  exists g', deallocate 4100 page_gap = Done g' /\
             deallocate 4100 g' = Fault assertion_failed.
Proof.
  exact (double_free_is_refused page_gap 4100 page_gap_page_ok page_gap_live_4100).
Defined.

(** X10.  After [deallocate(p)] of a live start, [contains(p)] reports [p]
    as in range and unallocated, at the slot of [p] (for [p] below the last
    byte of the buffer). *)
Theorem contains_after_deallocate g p :
  page_ok g -> live_start g p ->
  storage g <= p < storage g + total_size g - 1 ->
  exists g', deallocate p g = Done g' /\
    contains p g' =
    Done (mk_contains_ret in_range_unallocated (slot_of g p) 0).
Proof.
  intros Hok Hlive Hp.
  destruct (deallocate_spec g p Hok Hlive) as (g' & ns & e & Hd & Hrel).
  exists g'. split; [exact Hd|].
  pose proof (slot_of_range g p Hok) as Hh.
  assert (Hok' : page_ok g') by (eapply released_page_ok; eassumption).
  pose proof Hrel as [HT Hm Hs _ _ _ _ Hend _ Hclr _ _].
  pose proof (slot_of_offset_eq g (p - storage g) Hok ltac:(lia)) as Hslot.
  replace (storage g + (p - storage g)) with p in Hslot by lia.
  replace p with (storage g' + (p - storage g)) at 1 by (rewrite Hs; lia).
  rewrite (contains_unallocated g' (p - storage g) Hok');
    rewrite ?Hm, ?HT, <- ?Hslot; try reflexivity; try lia.
  apply Hclr. lia.
Qed.

Lemma contains_after_deallocate_witness :
  exists g', deallocate 4100 page_gap = Done g' /\
    contains 4100 g' = Done (mk_contains_ret in_range_unallocated 1 0).
Proof.
  apply (contains_after_deallocate page_gap 4100 page_gap_page_ok
           page_gap_live_4100).
  split; by_compute.
Defined.

(** ** allocate followed by deallocate *)

Lemma allocate_turned_away g size_T align_T num :
  current_known_request_bound g < bytes_of size_T num \/
  std_align align_T (bytes_of size_T num) (storage g) (total_size g) = None ->
  allocate size_T align_T num g = Done (mk_allocate_ret nullptr g []).
Proof.
  intros H. unfold allocate. fold (bytes_of size_T num).
  destruct (current_known_request_bound g <? bytes_of size_T num) eqn:Hlt;
    [reflexivity|].
  destruct H as [H|H]; [apply Z.ltb_ge in Hlt; lia|].
  rewrite H. reflexivity.
Qed.


Lemma allocate_deallocate_bitmaps g size_T align_T num r :
  page_ok g -> bits_ok g ->
  0 < bytes_of size_T num -> 0 < align_T <= size_modulus / 2 ->
  allocate size_T align_T num g = Done r ->
  ret_ptr r <> nullptr ->
  exists g',
    deallocate (ret_ptr r) (ret_page r) = Done g' /\
    inuse g' = inuse g /\
    starts g' = starts g /\
    g' = set_bound g (current_known_request_bound g') /\
    min_alloc g * needed_of g size_T num <= current_known_request_bound g'.
Proof.
  intros Hok [Hsiu Hrh] Hb Ha Hcall Hptr.
  destruct (allocate_Done_cases g size_T align_T num r Hok Hb Ha Hcall)
    as [-> | Hreq]; [contradiction Hptr; reflexivity|].
  destruct (allocate_spec g size_T align_T num Hok Hreq) as (r' & Hr' & Hpost).
  rewrite Hcall in Hr'. injection Hr' as <-.
  destruct Hpost as [ | | i tr Hbound Hfit Hi Hend Hfree Hnd Hin Hff];
    simpl in Hptr; try contradiction.
  simpl ret_ptr. simpl ret_page.
  pose proof (needed_range g Hok size_T num ltac:(lia)) as [Hn Hbn].
  pose proof (total_size_slots g Hok) as HT.
  pose proof (locations_range g Hok) as HL.
  pose proof Hok as [Hm Hts Hmul [Hs0 Hs1] Hlu Hls].
  set (n := needed_of g size_T num) in *.
  set (g1 := allocated g i n).
  assert (Hok1 : page_ok g1) by (apply page_ok_allocated; exact Hok).
  assert (Hslot : slot_of g1 (storage g + i * min_alloc g) = i).
  { change (slot_of g1) with (slot_of g).
    rewrite slot_of_offset_eq by (try assumption; nia). apply Z.div_mul. lia. }
  assert (Hused : forall k, i <= k < i + n -> vget (inuse g1) k = Done true).
  { intros k Hk. apply allocated_inuse_in; try assumption; lia. }
  assert (Hkeep : forall k, 0 <= k -> k < i \/ i + n <= k ->
                    vget (inuse g1) k = vget (inuse g) k).
  { intros k Hk0 Hk. apply allocated_inuse_out; lia. }
  assert (Hs_i : vget (starts g1) i = Done true).
  { apply allocated_starts_at; try assumption; lia. }
  assert (Hs_in : forall k, i < k < i + n -> vget (starts g1) k = Done false).
  { intros k Hk. apply allocated_interior_not_start; try assumption; lia. }
  assert (Hs_out : forall k, 0 <= k -> k <> i ->
                     vget (starts g1) k = vget (starts g) k).
  { intros k Hk0 Hk. apply allocated_starts_other; lia. }
  assert (Hlive : live_start g1 (storage g + i * min_alloc g)).
  { unfold live_start. rewrite Hslot.
    split; [unfold nullptr; nia|].
    split; [change (locations g1) with (locations g); lia|].
    split; [exact Hs_i | apply Hused; lia]. }
  destruct (deallocate_spec g1 _ Hok1 Hlive) as (g' & ns & e & Hd & Hrel).
  rewrite Hslot in Hrel.
  pose proof Hrel as [HrT Hrm Hrs Hrb Hrst Hrbound Hnext Hre Hrlen Hclr Hstop Hkept].
  destruct Hnext as (Hns & Hnone & Hat).
  change (locations g1) with (locations g) in *.
  assert (Hns_ge : i + n <= ns).
  { destruct (Z_lt_le_dec ns (i + n)) as [Hlt|]; [|assumption]. exfalso.
    specialize (Hat ltac:(lia)). rewrite Hs_in in Hat by lia. discriminate. }
  assert (He : e = i + n).
  { destruct (Z.lt_total e (i + n)) as [Hlt|[Heq|Hgt]]; [|exact Heq|]; exfalso.
    - specialize (Hstop ltac:(lia)). rewrite Hused in Hstop by lia. discriminate.
    - destruct (Hclr (i + n) ltac:(lia)) as [Hu _].
      rewrite Hkeep in Hu by lia.
      assert (Hhead : vget (starts g) (i + n) = Done true).
      { apply Hrh; [lia | exact Hu | right].
        replace (i + n - 1) with (i + (n - 1)) by lia. apply Hfree. lia. }
      rewrite <- Hs_out in Hhead by lia.
      rewrite Hnone in Hhead by lia. discriminate. }
  subst e.
  assert (Hinuse : inuse g' = inuse g).
  { apply vget_ext.
    - rewrite Hrlen. unfold g1, allocated. simpl. apply length_inserts.
    - intros k Hk. destruct (Z_lt_le_dec k i) as [Hlt|Hge].
      + rewrite Hkept, Hkeep by lia. reflexivity.
      + destruct (Z_lt_le_dec k (i + n)) as [Hin'|Hout].
        * destruct (Hclr k ltac:(lia)) as [_ ->].
          replace k with (i + (k - i)) by lia. symmetry. apply Hfree. lia.
        * rewrite Hkept, Hkeep by lia. reflexivity. }
  assert (Hstarts : starts g' = starts g).
  { rewrite Hrst. unfold g1, allocated. simpl starts.
    rewrite list_insert_insert_eq. apply list_insert_id.
    destruct (vget_bool (starts g) i ltac:(lia)) as [Ht|Hf].
    - apply Hsiu in Ht; [|lia]. replace i with (i + 0) in Ht by lia.
      rewrite Hfree in Ht by lia. discriminate.
    - apply vget_lookup in Hf. exact Hf. }
  exists g'. split; [exact Hd|]. split; [exact Hinuse|]. split; [exact Hstarts|].
  split.
  - destruct g' as [T' m' s' b' u' st' bd']. simpl in *.
    unfold set_bound. simpl. congruence.
  - rewrite Hrbound. change (min_alloc g1) with (min_alloc g). nia.
Qed.

(** X11.  Deallocating the pointer a successful [allocate] has just returned
    restores both bitmaps; the page differs from the one before the
    allocation in the bound cache only, which is then at least the size of
    the slots that were reserved. *)
Theorem allocate_deallocate_restores g size_T align_T num r :
  page_ok g -> bits_ok g ->
  0 < bytes_of size_T num -> 0 < align_T <= size_modulus / 2 ->
  allocate size_T align_T num g = Done r ->
  ret_ptr r <> nullptr ->
  exists g',
    deallocate (ret_ptr r) (ret_page r) = Done g' /\
    inuse g' = inuse g /\
    starts g' = starts g /\
    g' = set_bound g (current_known_request_bound g') /\
    min_alloc g * needed_of g size_T num <= current_known_request_bound g'.
Proof. exact (allocate_deallocate_bitmaps g size_T align_T num r). Qed.

Lemma allocate_deallocate_restores_witness :
  exists g', deallocate 4104 (allocated page_gap 2 1) = Done g' /\
    inuse g' = inuse page_gap.
Proof.
  destruct (allocate_deallocate_restores page_gap 1 1 1
              (mk_allocate_ret 4104 (allocated page_gap 2 1) [0; 1; 2]))
    as (g' & Hd & Hu & _).
  - exact page_gap_page_ok.
  - exact (proj2 (reachable_ok _ page_gap_reachable)).
  - by_compute.
  - split; by_compute.
  - vm_compute. reflexivity.
  - by_compute.
  - exists g'. split; assumption.
Defined.

Lemma allocate_on_set_bound g b size_T align_T num :
  bytes_of size_T num <= current_known_request_bound g ->
  bytes_of size_T num <= b ->
  match allocate size_T align_T num g,
        allocate size_T align_T num (set_bound g b) with
  | Done r1, Done r2 =>
      ret_ptr r2 = ret_ptr r1 /\ ret_probes r2 = ret_probes r1 /\
      inuse (ret_page r2) = inuse (ret_page r1) /\
      starts (ret_page r2) = starts (ret_page r1)
  | Fault f1, Fault f2 => f1 = f2
  | _, _ => False
  end.
Proof.
  intros H1 H2. unfold allocate. fold (bytes_of size_T num).
  change (current_known_request_bound (set_bound g b)) with b.
  change (storage (set_bound g b)) with (storage g).
  change (total_size (set_bound g b)) with (total_size g).
  change (min_alloc (set_bound g b)) with (min_alloc g).
  change (locations (set_bound g b)) with (locations g).
  change (inuse (set_bound g b)) with (inuse g).
  change (starts (set_bound g b)) with (starts g).
  change (storage_bytes (set_bound g b)) with (storage_bytes g).
  destruct (Z.ltb_spec (current_known_request_bound g) (bytes_of size_T num));
    [lia|].
  destruct (Z.ltb_spec b (bytes_of size_T num)); [lia|].
  destruct (std_align align_T (bytes_of size_T num) (storage g) (total_size g))
    as [[a sp]|]; [|simpl; auto].
  destruct (assert _) as [[]|f]; [rewrite !bind_Done|simpl; reflexivity].
  destruct (scan _ _ _ _ _ _) as [[i tr]|f]; [rewrite !bind_Done|simpl; reflexivity].
  destruct (_ <=? i); [simpl; auto|].
  destruct (vset (starts g) i true) as [s'|f]; [rewrite !bind_Done|simpl; reflexivity].
  destruct (vfill _ _ _ _) as [u'|f]; [rewrite !bind_Done|simpl; reflexivity].
  simpl. auto.
Qed.

(** X12.  After [allocate] and [deallocate] of the returned pointer, the
    same request succeeds again and returns the same pointer, leaving the
    bitmaps as after the first allocation. *)
Theorem allocate_again_returns_same_pointer g size_T align_T num r :
  page_ok g -> bits_ok g ->
  0 < bytes_of size_T num -> 0 < align_T <= size_modulus / 2 ->
  allocate size_T align_T num g = Done r ->
  ret_ptr r <> nullptr ->
  exists g' r',
    deallocate (ret_ptr r) (ret_page r) = Done g' /\
    allocate size_T align_T num g' = Done r' /\
    ret_ptr r' = ret_ptr r /\
    inuse (ret_page r') = inuse (ret_page r) /\
    starts (ret_page r') = starts (ret_page r).
Proof.
  intros Hok Hbits Hb Ha Hcall Hptr.
  destruct (allocate_deallocate_bitmaps g size_T align_T num r
              Hok Hbits Hb Ha Hcall Hptr)
    as (g' & Hd & _ & _ & Hg' & Hroom).
  destruct (allocate_block_facts g size_T align_T num r Hok Hb Ha Hcall Hptr)
    as (i & _ & _ & _ & Hbn & _).
  assert (Hbound : bytes_of size_T num <= current_known_request_bound g).
  { destruct (Z_lt_le_dec (current_known_request_bound g) (bytes_of size_T num))
      as [Hlt|]; [|assumption].
    rewrite (allocate_turned_away g size_T align_T num (or_introl Hlt)) in Hcall.
    injection Hcall as <-. contradiction Hptr. reflexivity. }
  pose proof (allocate_on_set_bound g (current_known_request_bound g')
                size_T align_T num Hbound ltac:(lia)) as Hsame.
  rewrite <- Hg', Hcall in Hsame.
  destruct (allocate size_T align_T num g') as [r'|f] eqn:Hr'; [|contradiction].
  exists g', r'. split; [exact Hd|]. split; [exact Hr'|]. tauto.
Qed.

Lemma allocate_again_returns_same_pointer_witness :
  exists g' r',
    deallocate 4104 (allocated page_gap 2 1) = Done g' /\
    allocate 1 1 1 g' = Done r' /\ ret_ptr r' = 4104.
Proof.
  destruct (allocate_again_returns_same_pointer page_gap 1 1 1
              (mk_allocate_ret 4104 (allocated page_gap 2 1) [0; 1; 2]))
    as (g' & r' & Hd & Hr' & Hp & _).
  - exact page_gap_page_ok.
  - exact (proj2 (reachable_ok _ page_gap_reachable)).
  - by_compute.
  - split; by_compute.
  - vm_compute. reflexivity.
  - by_compute.
  - exists g', r'. repeat split; assumption.
Defined.

(** X13.  On a freshly constructed page the first successful [allocate]
    returns the start of the buffer, and deallocating it gives back the
    constructed page, bound cache included. *)
Theorem fresh_page_allocate_deallocate
    total_size_ min_alloc_ addr fresh g size_T align_T num r :
  ctor_ok total_size_ min_alloc_ addr ->
  gpage_ctor total_size_ min_alloc_ addr fresh = Done g ->
  0 < bytes_of size_T num -> 0 < align_T <= size_modulus / 2 ->
  allocate size_T align_T num g = Done r ->
  ret_ptr r <> nullptr ->
  ret_ptr r = storage g /\
  deallocate (ret_ptr r) (ret_page r) = Done g.
Proof.
  intros Hc Hg Hb Ha Hcall Hptr.
  destruct (gpage_ctor_ok _ _ _ _ _ Hc Hg) as [Hok Hbits].
  destruct (gpage_ctor_shape _ _ _ fresh Hc)
    as (g0 & Hg0 & _ & _ & _ & _ & _ & HboundT & _ & Hclean).
  rewrite Hg in Hg0. injection Hg0 as <-.
  pose proof (total_size_slots g Hok) as HT.
  pose proof (locations_range g Hok) as HL.
  pose proof Hok as [Hm Hts Hmul [Hs0 Hs1] Hlu Hls].
  destruct (allocate_Done_cases g size_T align_T num r Hok Hb Ha Hcall)
    as [-> | Hreq]; [contradiction Hptr; reflexivity|].
  destruct (allocate_spec g size_T align_T num Hok Hreq) as (r' & Hr' & Hpost).
  pose proof Hcall as Hcall'.
  rewrite Hr' in Hcall'. injection Hcall' as ->.
  destruct Hpost as [ | | i tr Hbound Hfit Hi Hend Hfree Hnd Hin Hff];
    simpl in Hptr; try contradiction.
  pose proof (needed_range g Hok size_T num ltac:(lia)) as [Hn Hbn].
  pose proof (step_range g Hok align_T Ha) as Hstep.
  assert (Hheads : heads_aligned (inuse g) (locations g) (step_of g align_T)).
  { intros s Hs Hu _. rewrite (proj1 (Hclean s ltac:(lia))) in Hu. discriminate. }
  destruct (Hff Hheads) as [_ Hlow].
  assert (Hi0 : i = 0).
  { destruct (Z.eq_dec i 0) as [|Hne]; [assumption|]. exfalso.
    apply (Hlow 0); [|lia|].
    - split; [lia|]. split; [lia|]. apply Z.mod_0_l. lia.
    - intros k Hk. apply Hclean. lia. }
  subst i. simpl ret_ptr. split; [lia|].
  destruct (allocate_deallocate_bitmaps g size_T align_T num _
              Hok Hbits Hb Ha Hcall Hptr)
    as (g' & Hd & _ & _ & Hg' & _).
  simpl ret_ptr in Hd. simpl ret_page in Hd. simpl ret_page.
  rewrite Hd. f_equal. rewrite Hg'.
  set (n := needed_of g size_T num) in *.
  set (g1 := allocated g 0 n) in *.
  assert (Hok1 : page_ok g1) by (apply page_ok_allocated; exact Hok).
  destruct (deallocate_Done_inv g1 _ g' Hd) as [[Hnull _]|Hlive];
    [unfold nullptr in Hnull; lia|].
  destruct (deallocate_spec g1 _ Hok1 Hlive) as (g'' & ns & e & Hd' & Hrel).
  rewrite Hd in Hd'. injection Hd' as <-.
  assert (Hslot : slot_of g1 (storage g + 0 * min_alloc g) = 0).
  { change (slot_of g1) with (slot_of g).
    rewrite slot_of_offset_eq by (try assumption; nia). apply Z.div_mul. lia. }
  rewrite Hslot in Hrel.
  pose proof Hrel as [_ _ _ _ _ Hrbound Hnext _ _ _ _ _].
  assert (Hns : ns = locations g).
  { apply (next_start_after_unique g1 0 ns (locations g) Hok1); [lia|exact Hnext|].
    unfold next_start_after. change (locations g1) with (locations g).
    split; [lia|]. split; [|lia].
    intros k Hk. unfold g1.
    rewrite allocated_starts_other by lia. apply Hclean. lia. }
  rewrite Hrbound, Hns. change (min_alloc g1) with (min_alloc g).
  change (current_known_request_bound g1)
    with (wrap (current_known_request_bound g - min_alloc g * n)).
  rewrite wrap_small by (limits; nia).
  replace (Z.max _ _) with (current_known_request_bound g) by nia.
  destruct g. reflexivity.
Qed.

Lemma fresh_page_allocate_deallocate_witness :
  deallocate 4096 (allocated page_16_4 0 2) = Done page_16_4.
Proof.
  apply (fresh_page_allocate_deallocate 16 4 4096 (zero_bytes 16) page_16_4 8 4 1
           (mk_allocate_ret 4096 (allocated page_16_4 0 2) [0; 1])).
  - exact ctor_ok_16_4.
  - exact page_16_4_ctor.
  - by_compute.
  - split; by_compute.
  - vm_compute. reflexivity.
  - by_compute.
Defined.

(** ** Requests that fail *)





(** ** When the returned pointer is aligned *)

Lemma step_of_multiple g q :
  0 < min_alloc g -> 1 <= q -> step_of g (q * min_alloc g) = q.
Proof.
  intros Hm Hq. unfold step_of.
  replace (q * min_alloc g - 1) with ((q - 1) * min_alloc g + (min_alloc g - 1))
    by lia.
  rewrite Z.div_add_l by lia. rewrite Z.div_small by lia. lia.
Qed.

(** X15.  With the buffer aligned for [T], a successful [allocate] returns
    an address that is a multiple of [alignof(T)] when [alignof(T)] divides
    [min_alloc], and also when [min_alloc] divides [alignof(T)] and every run
    of in-use slots begins on a candidate slot. *)
Theorem allocate_aligned g size_T align_T num r :
  page_ok g ->
  0 < bytes_of size_T num -> 0 < align_T <= size_modulus / 2 ->
  storage g mod align_T = 0 ->
  (align_T | min_alloc g) \/
  ((min_alloc g | align_T) /\
   heads_aligned (inuse g) (locations g) (step_of g align_T)) ->
  allocate size_T align_T num g = Done r ->
  ret_ptr r <> nullptr ->
  ret_ptr r mod align_T = 0.
Proof.
  intros Hok Hb Ha Hbase Hgrid Hcall Hptr.
  destruct (allocate_Done_cases g size_T align_T num r Hok Hb Ha Hcall)
    as [-> | Hreq]; [contradiction Hptr; reflexivity|].
  destruct (allocate_spec g size_T align_T num Hok Hreq) as (r' & Hr' & Hpost).
  rewrite Hcall in Hr'. injection Hr' as <-.
  destruct Hpost as [ | | i tr Hbound Hfit Hi Hend Hfree Hnd Hin Hff];
    simpl in Hptr; try contradiction.
  simpl ret_ptr. pose proof Hok as [Hm _ _ _ _ _].
  apply Z.mod_divide; [lia|]. apply Z.divide_add_r.
  { apply Z.mod_divide; [lia | exact Hbase]. }
  destruct Hgrid as [Hdiv | [Hdiv Hheads]].
  - apply Z.divide_mul_r. exact Hdiv.
  - destruct Hdiv as [q Hq].
    assert (1 <= q) by nia.
    destruct (Hff Hheads) as [Hmod _].
    rewrite Hq, step_of_multiple in Hmod by lia.
    apply Z.mod_divide in Hmod; [|lia]. destruct Hmod as [t Ht].
    exists t. rewrite Hq, Ht. ring.
Qed.

Lemma allocate_aligned_witness :
  ret_ptr (mk_allocate_ret 4096 (allocated page_16_4 0 2) [0; 1]) mod 8 = 0.
Proof.
  apply (allocate_aligned page_16_4 8 8 1).
  - exact (proj1 page_16_4_ok).
  - by_compute.
  - split; by_compute.
  - reflexivity.
  - right. split; [exists 2; reflexivity|].
    intros s Hs Hu _. exfalso.
    change (locations page_16_4) with 4 in Hs.
    assert (s = 1 \/ s = 2 \/ s = 3) as [-> | [-> | ->]] by lia;
      discriminate Hu.
  - vm_compute. reflexivity.
  - by_compute.
Defined.

(** ** How far the scan reads *)

Lemma NoDup_bounded_length (l : list Z) (L : Z) :
  0 <= L -> NoDup l -> (forall s, s ∈ l -> 0 <= s < L) ->
  Z.of_nat (length l) <= L.
Proof.
  intros Hpos Hnd Hin.
  assert (Hsub : l ⊆+ seqZ 0 L).
  { apply NoDup_submseteq; [exact Hnd|].
    intros s Hs. apply elem_of_seqZ. specialize (Hin s Hs). lia. }
  apply submseteq_length in Hsub. rewrite length_seqZ in Hsub. lia.
Qed.

(** X16.  The scan of [allocate] reads only entries of [inuse] below
    [locations()], each at most once, so at most [locations()] entries per
    call. *)
Theorem allocate_reads_each_slot_at_most_once g size_T align_T num r :
  page_ok g ->
  0 < bytes_of size_T num -> 0 < align_T <= size_modulus / 2 ->
  allocate size_T align_T num g = Done r ->
  NoDup (ret_probes r) /\
  (forall s, s ∈ ret_probes r -> 0 <= s < locations g) /\
  Z.of_nat (length (ret_probes r)) <= locations g.
Proof.
  intros Hok Hb Ha Hcall.
  pose proof (locations_range g Hok) as HL.
  assert (H : NoDup (ret_probes r) /\
              forall s, s ∈ ret_probes r -> 0 <= s < locations g).
  { destruct (allocate_Done_cases g size_T align_T num r Hok Hb Ha Hcall)
      as [-> | Hreq].
    { simpl. split; [constructor|]. intros s Hs.
      apply elem_of_nil in Hs. contradiction. }
    destruct (allocate_spec g size_T align_T num Hok Hreq) as (r' & Hr' & Hpost).
    rewrite Hcall in Hr'. injection Hr' as <-.
    destruct Hpost; simpl; [|split; assumption|split; assumption].
    split; [constructor|]. intros s Hs. apply elem_of_nil in Hs. contradiction. }
  destruct H as [Hnd Hin]. split; [exact Hnd|]. split; [exact Hin|].
  apply NoDup_bounded_length; [lia | assumption | assumption].
Qed.

Lemma allocate_reads_each_slot_at_most_once_witness :
  Z.of_nat (length [0; 1; 2]) <= locations page_gap.
Proof.
  apply (allocate_reads_each_slot_at_most_once page_gap 1 1 1
           (mk_allocate_ret 4104 (allocated page_gap 2 1) [0; 1; 2])).
  - exact page_gap_page_ok.
  - by_compute.
  - split; by_compute.
  - vm_compute. reflexivity.
Defined.

(** ** What no sequence of calls changes *)

Lemma reachable_from_reachable ts ma addr fresh g :
  reachable_from ts ma addr fresh g -> reachable g.
Proof.
  induction 1.
  - eapply reach_ctor; eassumption.
  - eapply reach_allocate; eassumption.
  - eapply reach_deallocate; eassumption.
Qed.

(** X17.  Through every sequence of [allocate] and [deallocate] calls the
    page keeps the [total_size], [min_alloc], buffer address and buffer bytes
    it was constructed with, both bitmaps keep [total_size] entries, and the
    entries from [locations()] on are never set. *)
Theorem buffer_and_shape_are_fixed ts ma addr fresh g :
  reachable_from ts ma addr fresh g ->
  total_size g = round_up ts ma /\
  min_alloc g = ma /\
  storage g = addr /\
  storage_bytes g = fresh /\
  Z.of_nat (length (inuse g)) = total_size g /\
  Z.of_nat (length (starts g)) = total_size g /\
  forall k, locations g <= k < total_size g ->
    vget (inuse g) k = Done false /\ vget (starts g) k = Done false.
Proof.
  induction 1 as [g Hc Hg
                 | g sz al num r Hreach IH Hreq Hcall
                 | g p g' Hreach IH Hcall].
  - rewrite (gpage_ctor_spec _ _ _ _ Hc) in Hg. injection Hg as <-. simpl.
    destruct Hc as (Hm & Ht & Hlim & _).
    pose proof (round_up_range ts ma Hm Ht).
    repeat (split; [first [reflexivity | rewrite length_replicate; lia]|]).
    intros k Hk. unfold locations in Hk. simpl in Hk.
    assert (0 <= round_up ts ma / ma) by (apply Z.div_pos; lia).
    split; apply vget_replicate; lia.
  - destruct IH as (HT & Hm & Hs & Hb & Hlu & Hls & Htail).
    destruct (reachable_ok g (reachable_from_reachable _ _ _ _ _ Hreach))
      as [Hok Hbits].
    pose proof (locations_range g Hok) as HL.
    destruct (allocate_spec g sz al num Hok Hreq) as (r' & Hr' & Hpost).
    rewrite Hcall in Hr'. injection Hr' as <-.
    destruct Hpost as [ | | i tr Hbound Hfit Hi Hend Hfree Hnd Hin Hff]; simpl.
    + repeat (split; [assumption|]). exact Htail.
    + repeat (split; [assumption|]). exact Htail.
    + pose proof (req_bytes _ _ _ _ Hreq) as Hpos. fold (bytes_of sz num) in Hpos.
      pose proof (needed_range g Hok sz num ltac:(lia)) as [Hn _].
      rewrite length_inserts, length_insert.
      repeat (split; [assumption|]).
      intros k Hk. change (locations (allocated g i _)) with (locations g) in Hk.
      change (total_size (allocated g i _)) with (total_size g) in Hk.
      rewrite vget_fill_out by lia.
      rewrite vget_insert_ne by lia. apply Htail. exact Hk.
  - destruct IH as (HT & Hm & Hs & Hb & Hlu & Hls & Htail).
    destruct (reachable_ok g (reachable_from_reachable _ _ _ _ _ Hreach))
      as [Hok Hbits].
    destruct (deallocate_Done_inv g p g' Hcall) as [[_ ->]|Hlive].
    { repeat (split; [assumption|]). exact Htail. }
    destruct (deallocate_spec g p Hok Hlive) as (g'' & ns & e & Hd & Hrel).
    rewrite Hcall in Hd. injection Hd as <-.
    pose proof (slot_of_range g p Hok) as Hh.
    pose proof Hrel as [HrT Hrm Hrs Hrb Hrst _ Hnext Hre Hrlen _ _ Hkept].
    destruct Hnext as (Hns & _ & _).
    rewrite HrT, Hrm, Hrs, Hrb, Hrlen, Hrst, length_insert.
    repeat (split; [assumption|]).
    intros k Hk. unfold locations in Hk. rewrite HrT, Hrm in Hk.
    fold (locations g) in Hk.
    rewrite Hkept by lia. rewrite <- Hrst.
    rewrite (released_starts g g' _ ns e Hh Hrel) by lia.
    apply Htail. exact Hk.
Qed.

Lemma buffer_and_shape_are_fixed_witness :
  total_size (ret_page (mk_allocate_ret 4096 (allocated page_16_4 0 2) [0; 1]))
  = round_up 16 4.
Proof.
  apply (buffer_and_shape_are_fixed 16 4 4096 (zero_bytes 16)).
  apply (from_allocate _ _ _ _ page_16_4 8 4 1).
  - apply from_ctor; [exact ctor_ok_16_4 | exact page_16_4_ctor].
  - exact request_8_4_1_ok.
  - vm_compute. reflexivity.
Defined.

(** ** lowest_hex_digits_of_address *)

Lemma drop_insert_here {A} (l : list A) n x :
  (n < length l)%nat -> drop n (<[n := x]> l) = x :: drop (S n) l.
Proof.
  revert l. induction n as [|n IH]; intros [|y l] Hlen; simpl in *; try lia.
  - reflexivity.
  - apply IH. lia.
Qed.

Lemma hex_loop_spec n : forall val ret,
  (n <= length ret)%nat ->
  hex_loop n val ret = hex_digits_of n val ++ drop n ret.
Proof.
  induction n as [|n IH]; intros val ret Hlen.
  - simpl. rewrite drop_0. reflexivity.
  - simpl hex_loop. rewrite IH by (rewrite length_insert; lia).
    rewrite drop_insert_here by lia.
    rewrite Z.shiftr_div_pow2 by lia. change (2 ^ 4) with 16.
    simpl hex_digits_of. rewrite <- app_assoc. reflexivity.
Qed.

Lemma length_hex_digits_of n val : length (hex_digits_of n val) = n.
Proof.
  revert val. induction n as [|n IH]; intros val; simpl; [reflexivity|].
  rewrite length_app, IH. simpl. lia.
Qed.

Lemma hex_digit_value_digit_at d :
  0 <= d < 16 -> hex_digit_value (digit_at d) = Some d.
Proof.
  intros Hd.
  assert (d = 0 \/ d = 1 \/ d = 2 \/ d = 3 \/ d = 4 \/ d = 5 \/ d = 6 \/ d = 7 \/
          d = 8 \/ d = 9 \/ d = 10 \/ d = 11 \/ d = 12 \/ d = 13 \/ d = 14 \/
          d = 15) as H by lia.
  repeat (destruct H as [-> | H]; [reflexivity|]). subst d. reflexivity.
Qed.

Lemma hex_value_digits_of n : forall val,
  0 <= val -> hex_value (hex_digits_of n val) = Some (val mod 16 ^ Z.of_nat n).
Proof.
  induction n as [|n IH]; intros val Hval.
  - simpl. rewrite Z.mod_1_r. reflexivity.
  - simpl hex_digits_of. unfold hex_value in *. rewrite fold_left_app.
    rewrite IH by (apply Z.div_pos; lia). simpl fold_left. unfold hex_step.
    rewrite hex_digit_value_digit_at by (apply Z.mod_pos_bound; lia).
    f_equal. rewrite Nat2Z.inj_succ, Z.pow_succ_r by lia.
    rewrite (Z.rem_mul_r val 16 (16 ^ Z.of_nat n)) by lia. lia.
Qed.

(** X18.  For [0 < num < 9], [lowest_hex_digits_of_address(p, num)] returns
    [num] characters that, read as a hexadecimal numeral, give the address
    modulo [16^num]. *)
Theorem lowest_hex_digits_decode p num :
  0 < num < 9 ->
  exists s,
    lowest_hex_digits_of_address p num = Done s /\
    Z.of_nat (length s) = num /\
    hex_value s = Some (wrap p mod 16 ^ num).
Proof.
  intros Hnum. unfold lowest_hex_digits_of_address.
  destruct (Z.ltb_spec 0 num); [|lia]. destruct (Z.ltb_spec num 9); [|lia].
  simpl assert. rewrite bind_Done.
  eexists. split; [reflexivity|].
  rewrite hex_loop_spec by (rewrite length_replicate; lia).
  rewrite drop_ge by (rewrite length_replicate; lia).
  rewrite app_nil_r, length_hex_digits_of.
  split; [lia|].
  rewrite hex_value_digits_of by apply wrap_range.
  rewrite Z2Nat.id by lia. reflexivity.
Qed.

Lemma lowest_hex_digits_decode_witness :
  exists s, lowest_hex_digits_of_address 4108 4 = Done s /\
    s = ["1"; "0"; "0"; "C"]%char.
Proof.
  destruct (lowest_hex_digits_decode 4108 4) as (s & Hs & _).
  - split; by_compute.
  - exists s. split; [exact Hs|].
    vm_compute in Hs. injection Hs as <-. reflexivity.
Defined.
